(** * Reber-grammar string generation (Lab8/Lab8_1.ipynb)

    A shallow embedding of the data-preparation code of the notebook:
    the two stock grammars, [generate_string], [generate_corrupted_string],
    [string_to_ids] and [generate_dataset], together with the properties
    the design document states about them.

    Conventions of the embedding.
    - A Python [str] is a [string] (of 8-bit characters, which covers the
      grammars and the alphabet); a one-character [str], which is what
      indexing a string or iterating over it yields, is a [string] of
      length one.
    - States of a grammar are natural numbers, as in both stock grammars;
      [None] is the terminal next state.
    - Python exceptions and the hidden state of [np.random] are threaded
      explicitly: a computation is a function from the state of the random
      source to an outcome, which is a value with the next state, a raised
      exception, or [Diverge] when the step budget of the [while] loop is
      used up before the loop has finished.
    - [np.random] itself is an interface ([RandomSource]): any type of
      states with a bounded draw. Nothing is assumed about the values drawn
      beyond numpy's contract that [randint(n)] lies in [[0, n)].
    - [tf.ragged.constant] and [np.array] only repackage the nested lists
      they are given; [X] and [y] are kept as those nested lists.
    - A Python [set] is a finite set; where runs are compared, the order
      in which a run iterates its sets is a parameter of the run
      ([valid_order]), as it is not fixed by the language. *)

From Stdlib Require Import Floats.
From stdpp Require Import gmap strings list sorting.
From Stdlib Require Import Ascii ZArith Lia.

#[local] Set Warnings "-clear-no-such-hyp".
Local Open Scope Z_scope.
Local Open Scope nat_scope.

(** ** Outcomes of a Python computation *)

Inductive exn : Type :=
| IndexError   (* sequence index out of range *)
| ValueError.  (* randint(0), choice([]), str.index of an absent substring *)

Inductive outcome (A : Type) : Type :=
| Ok (a : A)
| Raise (e : exn)
| Diverge.

Arguments Ok {A} a.
Arguments Raise {A} e.
Arguments Diverge {A}.

(** A computation over the random source [R]. *)
Definition comp (R A : Type) : Type := R → outcome (A * R).

Definition ret {R A} (a : A) : comp R A := λ r, Ok (a, r).

Definition bind {R A B} (c : comp R A) (k : A → comp R B) : comp R B :=
  λ r, match c r with
       | Ok (a, r1) => k a r1
       | Raise e => Raise e
       | Diverge => Diverge
       end.

Definition raise {R A} (e : exn) : comp R A := λ _, Raise e.

(** A computation that does not touch the random source. *)
Definition lift {R A} (o : outcome A) : comp R A :=
  λ r, match o with
       | Ok a => Ok (a, r)
       | Raise e => Raise e
       | Diverge => Diverge
       end.

Declare Scope comp_scope.
Delimit Scope comp_scope with comp.
Notation "x <- c ;; k" := (bind c (λ x, k))
  (at level 100, c at next level, right associativity) : comp_scope.
Local Open Scope comp_scope.

(** [c2] returns whatever [c1] returns. *)
Definition extends {R A} (c1 c2 : comp R A) : Prop :=
  ∀ r a r', c1 r = Ok (a, r') → c2 r = Ok (a, r').

(** [[c for _ in range(n)]]: run [c] [n] times, left to right. *)
Fixpoint comprehension {R A} (n : nat) (c : comp R A) : comp R (list A) :=
  match n with
  | 0 => ret []
  | S n => x <- c ;;
           xs <- comprehension n c ;;
           ret (x :: xs)
  end.

(** [[f(c) for c in l]] for an [f] that may raise. *)
Fixpoint traverse {A B} (f : A → outcome B) (l : list A) : outcome (list B) :=
  match l with
  | [] => Ok []
  | x :: l =>
      match f x with
      | Ok y => match traverse f l with
                | Ok ys => Ok (y :: ys)
                | Raise e => Raise e
                | Diverge => Diverge
                end
      | Raise e => Raise e
      | Diverge => Diverge
      end
  end.

(** ** The random source *)

Class RandomSource (R : Type) : Type := {
  (** the bounded draw behind [randint] and [choice]: upper bound and
      state to value and next state *)
  draw : nat → R → nat * R;
  draw_lt : ∀ high r, 0 < high → fst (draw high r) < high
}.

(** [seq[i]] for a non-negative [i]. *)
Definition getitem {R A} (l : list A) (i : nat) : comp R A :=
  match l !! i with
  | Some x => ret x
  | None => raise IndexError
  end.

Section Numpy.
Context {R : Type} `{RandomSource R}.

(** [np.random.randint(high)] *)
Definition randint (high : nat) : comp R nat :=
  match high with
  | 0 => raise ValueError
  | S _ => λ r, Ok (draw high r)
  end.

(** [np.random.choice(a)] for a list [a] *)
Definition choice {A} (a : list A) : comp R A :=
  match a with
  | [] => raise ValueError
  | _ :: _ => i <- (λ r, Ok (draw (length a) r)) ;; getitem a i
  end.
End Numpy.

(** A source for running the code on chosen draws: a tape of numbers,
    each reduced into the requested range; an exhausted tape yields 0. *)
Definition tape : Type := list nat.

Definition tape_draw (high : nat) (t : tape) : nat * tape :=
  match t with
  | [] => (0, [])
  | d :: t => (d `mod` high, t)
  end.

Lemma tape_draw_lt high t : 0 < high → fst (tape_draw high t) < high.
Proof.
  intros Hpos. destruct t as [|d t]; simpl; [done|].
  apply Nat.mod_upper_bound. lia.
Qed.

Instance tape_source : RandomSource tape :=
  {| draw := tape_draw; draw_lt := tape_draw_lt |}.

(** A second source: an endless stream of numbers read at a cursor. *)
Definition stream : Type := (nat → nat) * nat.

Definition stream_draw (high : nat) (s : stream) : nat * stream :=
  (s.1 s.2 `mod` high, (s.1, S s.2)).

Lemma stream_draw_lt high s : 0 < high → fst (stream_draw high s) < high.
Proof. intros Hpos. simpl. apply Nat.mod_upper_bound. lia. Qed.

Instance stream_source : RandomSource stream :=
  {| draw := stream_draw; draw_lt := stream_draw_lt |}.

(** A tape and a stream hold the same numbers from here on. *)
Definition tape_stream_same (t : tape) (s : stream) : Prop :=
  ∀ i, default 0 (t !! i) = s.1 (s.2 + i).

(** ** Strings *)

(** [len(s)] *)
Abbreviation len := String.length.

(** The characters of a string. *)
Abbreviation explode := String.list_ascii_of_string.

(** The one-character string of a character. *)
Definition chr (a : ascii) : string := String a EmptyString.

(** [s[i]] for a non-negative [i]: a one-character string. *)
Definition str_getitem {R} (s : string) (i : nat) : comp R string :=
  match String.get i s with
  | Some a => ret (chr a)
  | None => raise IndexError
  end.

(** [s[:i]] and [s[i:]]; slices clamp at the end of the string. *)
Definition slice_to (s : string) (i : nat) : string := String.substring 0 i s.
Definition slice_from (s : string) (i : nat) : string :=
  String.substring i (len s - i) s.

(** [for c in s]: the characters of [s] as one-character strings. *)
Definition iter_str (s : string) : list string := chr <$> explode s.

(** [chars.index(c)]: position of the first occurrence of the substring. *)
Definition str_index (chars c : string) : outcome nat :=
  match String.index 0 c chars with
  | Some i => Ok i
  | None => Raise ValueError
  end.

(** [set(s)]: the set of the characters of [s]. *)
Definition py_set (s : string) : gset ascii := list_to_set (explode s).

(** Order of code points, which [sorted] uses on one-character strings. *)
Definition ascii_le (a b : ascii) : Prop := nat_of_ascii a ≤ nat_of_ascii b.

Instance ascii_le_dec : RelDecision ascii_le.
Proof. intros a b. unfold ascii_le. apply _. Defined.

(** [sorted(S)] for a set of characters. *)
Definition sorted (S : gset ascii) : list string :=
  chr <$> merge_sort ascii_le (elements S).

(** ** Grammars *)

(** A production is a literal or a nested grammar ([isinstance(_, list)]);
    a grammar is a list of states, a state a list of transitions
    [(production, next_state)], and [None] the terminal next state. *)
#[local] Set Warnings "-register-all".
Inductive production : Type :=
| Sym (s : string)
| Sub (g : list (list (production * option nat))).

Abbreviation transition := (production * option nat)%type.
Abbreviation grammar := (list (list transition)).

Definition default_reber_grammar : grammar :=
  [ [(Sym "B", Some 1)];
    [(Sym "T", Some 2); (Sym "P", Some 3)];
    [(Sym "S", Some 2); (Sym "X", Some 4)];
    [(Sym "T", Some 3); (Sym "V", Some 5)];
    [(Sym "X", Some 3); (Sym "S", Some 6)];
    [(Sym "P", Some 4); (Sym "V", Some 6)];
    [(Sym "E", None)] ].

Definition embedded_reber_grammar : grammar :=
  [ [(Sym "B", Some 1)];
    [(Sym "T", Some 2); (Sym "P", Some 3)];
    [(Sub default_reber_grammar, Some 4)];
    [(Sub default_reber_grammar, Some 5)];
    [(Sym "T", Some 6)];
    [(Sym "P", Some 6)];
    [(Sym "E", None)] ].

Definition POSSIBLE_CHARS : string := "BEPSTVX".

(** [''.join(output)] *)
Definition join (output : list string) : string := String.concat "" output.

Section Generator.
Context {R : Type} `{RandomSource R}.

(** The [while] loop of [generate_string], entered with the current
    [state] and [output]. [fuel] bounds the iterations of the loop and the
    depth of nesting together; a run that is cut short is [Diverge]. *)
Fixpoint while_loop (fuel : nat) (g : grammar) (state : option nat)
    (output : list string) : comp R string :=
  match fuel with
  | 0 => λ _, Diverge
  | S fuel =>
      match state with
      | None => ret (join output)
      | Some st =>
          transitions <- getitem g st ;;
          index <- randint (length transitions) ;;
          entry <- getitem transitions index ;;
          let '(production, state) := entry in
          match production with
          | Sub g' =>
              production <- while_loop fuel g' (Some 0) [] ;;
              while_loop fuel g state (output ++ [production])
          | Sym production =>
              while_loop fuel g state (output ++ [production])
          end
      end
  end.

Definition generate_string (fuel : nat) (g : grammar) : comp R string :=
  while_loop fuel g (Some 0) [].

Definition generate_corrupted_string (fuel : nat) (g : grammar)
    (chars : string) : comp R string :=
  good_string <- generate_string fuel g ;;
  index <- randint (len good_string) ;;
  good_char <- str_getitem good_string index ;;
  bad_char <- choice (sorted (py_set chars ∖ py_set good_char)) ;;
  ret (slice_to good_string index +:+ bad_char
       +:+ slice_from good_string (index + 1)).
End Generator.

Definition string_to_ids (s chars : string) : outcome (list nat) :=
  traverse (str_index chars) (iter_str s).

Section Dataset.
Context {R : Type} `{RandomSource R}.

Definition generate_dataset (fuel : nat) (size : Z)
    : comp R (list (list nat) * list (list float)) :=
  good_strings <-
    comprehension (Z.to_nat (size / 2))
      (s <- generate_string fuel embedded_reber_grammar ;;
       lift (string_to_ids s POSSIBLE_CHARS)) ;;
  bad_strings <-
    comprehension (Z.to_nat (size - size / 2))
      (s <- generate_corrupted_string fuel embedded_reber_grammar
                   POSSIBLE_CHARS ;;
       lift (string_to_ids s POSSIBLE_CHARS)) ;;
  let all_strings := good_strings ++ bad_strings in
  let X := all_strings in
  let y := ((λ _, [1%float]) <$> seq 0 (length good_strings))
           ++ ((λ _, [0%float]) <$> seq 0 (length bad_strings)) in
  ret (X, y).
End Dataset.



(** ** Matching a string against a grammar *)

(** [s] without its prefix [p], when it has that prefix. *)
Fixpoint strip_prefix (p s : string) : option string :=
  match p, s with
  | EmptyString, _ => Some s
  | String a p, String b s => if Ascii.eqb a b then strip_prefix p s else None
  | String _ _, EmptyString => None
  end.

(** Run [s] forward through the transition table of [g] from [state]:
    every transition of the current state whose production can be consumed
    from the front of the input is followed, a nested grammar being run
    from its own state 0 on the same input. The result lists what is left
    of the input each time the terminal next state [None] is reached. *)
Fixpoint run_forward (fuel : nat) (g : grammar) (state : option nat)
    (s : string) : list string :=
  match fuel with
  | 0 => []
  | S fuel =>
      match state with
      | None => [s]
      | Some st =>
          match g !! st with
          | None => []
          | Some transitions =>
              entry ← transitions;
              let '(production, state) := entry in
              match production with
              | Sym c =>
                  match strip_prefix c s with
                  | Some rest => run_forward fuel g state rest
                  | None => []
                  end
              | Sub g' =>
                  rest ← run_forward fuel g' (Some 0) s;
                  run_forward fuel g state rest
              end
          end
      end
  end.

(** [s] matches [g]: the terminal is reached with nothing left over. *)
Definition matches (fuel : nat) (g : grammar) (s : string) : bool :=
  bool_decide ("" ∈ run_forward fuel g (Some 0) s).

(** The strings a grammar derives from a state, declaratively. *)
Inductive derives : grammar → option nat → string → Prop :=
| derives_stop g : derives g None ""
| derives_sym g st transitions c state w :
    g !! st = Some transitions →
    (Sym c, state) ∈ transitions →
    derives g state w →
    derives g (Some st) (c +:+ w)
| derives_sub g st transitions g' state sub w :
    g !! st = Some transitions →
    (Sub g', state) ∈ transitions →
    derives g' (Some 0) sub →
    derives g state w →
    derives g (Some st) (sub +:+ w).

(** The literal productions of a grammar, at every depth of nesting. *)
Fixpoint production_symbols (p : production) : list string :=
  match p with
  | Sym c => [c]
  | Sub g =>
      transitions ← g;
      entry ← transitions;
      let '(production, _) := entry in production_symbols production
  end.

Definition grammar_symbols (g : grammar) : list string :=
  production_symbols (Sub g).

(** Every literal production of [g] is written in the alphabet [chars]. *)
Definition over_alphabet (chars : string) (g : grammar) : Prop :=
  Forall (λ c, Forall (λ a, a ∈ explode chars) (explode c)) (grammar_symbols g).

(** Every run of [g] starts by emitting [c]: state 0 has transitions and
    each of them produces the literal [c]. *)
Definition starts_with (c : string) (g : grammar) : Prop :=
  ∃ transitions,
    g !! 0 = Some transitions
    ∧ Forall (λ entry : transition, entry.1 = Sym c) transitions.

(** Every run of [g] stops by emitting [c]: each transition into the
    terminal next state produces the literal [c]. *)
Definition ends_with (c : string) (g : grammar) : Prop :=
  Forall (Forall (λ entry : transition, entry.2 = None → entry.1 = Sym c)) g.

(** A grammar the generator can walk without an exception: it has a
    state 0, every state has a transition, every next state is a state of
    the grammar, and the nested grammars are of the same kind. *)
Fixpoint production_ok (p : production) : bool :=
  match p with
  | Sym _ => true
  | Sub g =>
      bool_decide (0 < length g)
      && forallb (λ transitions : list transition,
           bool_decide (0 < length transitions)
           && forallb (λ entry : transition,
                let '(production, state) := entry in
                production_ok production
                && match state with
                   | Some st => bool_decide (st < length g)
                   | None => true
                   end) transitions) g
  end.

Definition well_formed (g : grammar) : Prop := production_ok (Sub g) = true.

(** ** Runs *)

(** A run of the notebook is a sequence of calls made one after the other
    on the one shared random source. *)
Inductive call : Type :=
| call_generate_string (g : grammar)
| call_generate_corrupted_string (g : grammar) (chars : string)
| call_generate_dataset (size : Z).

Inductive output : Type :=
| output_string (s : string)
| output_dataset (Xy : list (list nat) * list (list float)).

Section Runs.
Context {R : Type} `{RandomSource R}.

Definition run_call (fuel : nat) (c : call) : comp R output :=
  match c with
  | call_generate_string g =>
      s <- generate_string fuel g ;; ret (output_string s)
  | call_generate_corrupted_string g chars =>
      s <- generate_corrupted_string fuel g chars ;; ret (output_string s)
  | call_generate_dataset size =>
      Xy <- generate_dataset fuel size ;; ret (output_dataset Xy)
  end.

Fixpoint run_calls (fuel : nat) (calls : list call) : comp R (list output) :=
  match calls with
  | [] => ret []
  | c :: calls =>
      o <- run_call fuel c ;;
      os <- run_calls fuel calls ;;
      ret (o :: os)
  end.
End Runs.

(** Two random sources, possibly of different implementations, are seeded
    identically when their states are related by a relation [same] that
    every draw preserves while yielding the same value on both sides. *)
Definition same_draws {R1 R2 : Type} `{RandomSource R1} `{RandomSource R2}
    (same : R1 → R2 → Prop) : Prop :=
  ∀ high r1 r2, same r1 r2 →
    (draw high r1).1 = (draw high r2).1 ∧ same (draw high r1).2 (draw high r2).2.

(** Two outcomes agree: the same value with sources still in step, the
    same exception, or both still running. *)
Definition agree {R1 R2 A : Type} (same : R1 → R2 → Prop)
    (o1 : outcome (A * R1)) (o2 : outcome (A * R2)) : Prop :=
  match o1, o2 with
  | Ok (a1, r1), Ok (a2, r2) => a1 = a2 ∧ same r1 r2
  | Raise e1, Raise e2 => e1 = e2
  | Diverge, Diverge => True
  | _, _ => False
  end.

(** Two computations stay in step from any pair of states in step. *)
Definition in_step {R1 R2 A : Type} (same : R1 → R2 → Prop)
    (c1 : comp R1 A) (c2 : comp R2 A) : Prop :=
  ∀ r1 r2, same r1 r2 → agree same (c1 r1) (c2 r2).

(** ** Grammars without nesting *)

(** Every production of [g] is a literal of one character. *)
Definition single_symbols (g : grammar) : Prop :=
  ∀ st transitions production state,
    g !! st = Some transitions →
    (production, state) ∈ transitions →
    ∃ a, production = Sym (chr a).

(** Of the state a transition leaves, the symbol it emits and the state it
    enters, any two determine the third. *)
Definition reversible (g : grammar) : Prop :=
  ∀ st st' transitions transitions' c c' state state',
    g !! st = Some transitions →
    g !! st' = Some transitions' →
    (Sym c, state) ∈ transitions →
    (Sym c', state') ∈ transitions' →
    (c = c' → state = state' → st = st')
    ∧ (st = st' → state = state' → c = c')
    ∧ (st = st' → c = c' → state = state').

(** The number of symbols the default Reber grammar still has to emit,
    at least, from a state. *)
Definition default_distance (state : option nat) : nat :=
  match state with
  | Some 0 => 5
  | Some 1 => 4
  | Some 2 | Some 3 => 3
  | Some 4 | Some 5 => 2
  | Some 6 => 1
  | _ => 0
  end.

(** The two strings the notebook scores with the trained network, and
    their encoding [[string_to_ids(s) for s in test_strings]]. *)
Definition test_strings : list string :=
  ["BPBTSSSSSSSXXTTVPXVPXTTTTTVVETE"; "BPBTSSSSSSSXXTTVPXVPXTTTTTVVEPE"].

Definition X_test : outcome (list (list nat)) :=
  traverse (λ s, string_to_ids s POSSIBLE_CHARS) test_strings.

(** ** The order in which a run iterates its sets *)

(** Python fixes no order for iterating a [set] of strings: it depends on
    the hashes of the run. [iter S] is the order in which a run yields the
    elements of [S]; any enumeration of the set is possible. *)
Definition valid_order (iter : gset ascii → list ascii) : Prop :=
  ∀ S, iter S ≡ₚ elements S.

(** [sorted(S)] in a run that iterates [S] in the order [iter S]. *)
Definition sorted_from (iter : gset ascii → list ascii) (S : gset ascii)
    : list string :=
  chr <$> merge_sort ascii_le (iter S).

Section RunsUnderOrder.
Context {R : Type} `{RandomSource R}.
Variable iter : gset ascii → list ascii.

(** [generate_corrupted_string] in such a run. *)
Definition generate_corrupted_string_under (fuel : nat) (g : grammar)
    (chars : string) : comp R string :=
  good_string <- generate_string fuel g ;;
  index <- randint (len good_string) ;;
  good_char <- str_getitem good_string index ;;
  bad_char <- choice (sorted_from iter (py_set chars ∖ py_set good_char)) ;;
  ret (slice_to good_string index +:+ bad_char
       +:+ slice_from good_string (index + 1)).

(** [generate_dataset] in such a run. *)
Definition generate_dataset_under (fuel : nat) (size : Z)
    : comp R (list (list nat) * list (list float)) :=
  good_strings <-
    comprehension (Z.to_nat (size / 2))
      (s <- generate_string fuel embedded_reber_grammar ;;
       lift (string_to_ids s POSSIBLE_CHARS)) ;;
  bad_strings <-
    comprehension (Z.to_nat (size - size / 2))
      (s <- generate_corrupted_string_under fuel embedded_reber_grammar
              POSSIBLE_CHARS ;;
       lift (string_to_ids s POSSIBLE_CHARS)) ;;
  let all_strings := good_strings ++ bad_strings in
  let X := all_strings in
  let y := ((λ _, [1%float]) <$> seq 0 (length good_strings))
           ++ ((λ _, [0%float]) <$> seq 0 (length bad_strings)) in
  ret (X, y).

Definition run_call_under (fuel : nat) (c : call) : comp R output :=
  match c with
  | call_generate_string g =>
      s <- generate_string fuel g ;; ret (output_string s)
  | call_generate_corrupted_string g chars =>
      s <- generate_corrupted_string_under fuel g chars ;;
      ret (output_string s)
  | call_generate_dataset size =>
      Xy <- generate_dataset_under fuel size ;; ret (output_dataset Xy)
  end.

Fixpoint run_calls_under (fuel : nat) (calls : list call)
    : comp R (list output) :=
  match calls with
  | [] => ret []
  | c :: calls =>
      o <- run_call_under fuel c ;;
      os <- run_calls_under fuel calls ;;
      ret (o :: os)
  end.
End RunsUnderOrder.

(** ** Sources on which the generator returns *)

(** From every state of the source, the loop of [generate_string] on the
    embedded Reber grammar comes to its end. *)
Definition generator_halts (R : Type) `{RandomSource R} : Prop :=
  ∀ r : R, ∃ fuel s r',
    generate_string fuel embedded_reber_grammar r = Ok (s, r').

(** A source that always draws the largest value allowed. *)
Definition top_draw (high : nat) (u : unit) : nat * unit := (high - 1, u).

Lemma top_draw_lt high u : 0 < high → fst (top_draw high u) < high.
Proof. simpl. lia. Qed.

Instance top_source : RandomSource unit :=
  {| draw := top_draw; draw_lt := top_draw_lt |}.

(** * Facts about the embedding *)

(** ** Running the code on a tape *)

Example generate_default_tape :
  generate_string 20 default_reber_grammar [7; 0; 0; 1; 1; 0]
  = Ok ("BTSXSE", []).
Proof. vm_compute. reflexivity. Qed.

Example generate_embedded_tape :
  generate_string 20 embedded_reber_grammar [0; 1; 0; 0; 1; 1; 1; 0; 0; 0]
  = Ok ("BPBPVVEPE", []).
Proof. vm_compute. reflexivity. Qed.

(** A source that always draws 0 keeps the default grammar in the loop
    of state 2, whatever the budget: the generator need not return. *)
Example generate_default_loops :
  generate_string 1000 default_reber_grammar [] = Diverge.
Proof. vm_compute. reflexivity. Qed.

(** ** Strings as lists of characters *)

Lemma explode_app s1 s2 : explode (s1 +:+ s2) = explode s1 ++ explode s2.
Proof. induction s1 as [|a s1 IH]; simpl; [done|]. by rewrite <- IH. Qed.

Lemma explode_length s : length (explode s) = len s.
Proof. induction s as [|a s IH]; simpl; [done|]. by rewrite IH. Qed.

Lemma explode_get s i : String.get i s = explode s !! i.
Proof.
  revert i; induction s as [|a s IH]; intros [|i]; simpl; auto.
Qed.

Lemma explode_substring n m s :
  explode (String.substring n m s) = take m (drop n (explode s)).
Proof.
  revert n m; induction s as [|a s IH]; intros [|n] [|m]; simpl;
    rewrite ?IH; done.
Qed.

Lemma explode_inj s1 s2 : explode s1 = explode s2 → s1 = s2.
Proof.
  intros Heq.
  rewrite <- (String.string_of_list_ascii_of_string s1),
          <- (String.string_of_list_ascii_of_string s2).
  by rewrite Heq.
Qed.

Lemma explode_slice_to s i : explode (slice_to s i) = take i (explode s).
Proof. unfold slice_to. by rewrite explode_substring. Qed.

Lemma explode_slice_from s i : explode (slice_from s i) = drop i (explode s).
Proof.
  unfold slice_from. rewrite explode_substring.
  apply take_ge. rewrite length_drop, explode_length. lia.
Qed.

Lemma app_empty_r s : s +:+ "" = s.
Proof. apply explode_inj. by rewrite explode_app, app_nil_r. Qed.

Lemma app_empty_l s : "" +:+ s = s.
Proof. done. Qed.

Lemma str_app_assoc s1 s2 s3 : (s1 +:+ s2) +:+ s3 = s1 +:+ s2 +:+ s3.
Proof. apply explode_inj. by rewrite !explode_app, app_assoc. Qed.

Lemma len_app s1 s2 : len (s1 +:+ s2) = len s1 + len s2.
Proof. by rewrite <- !explode_length, explode_app, length_app. Qed.

Lemma join_nil : join [] = "".
Proof. done. Qed.

Lemma join_cons s l : join (s :: l) = s +:+ join l.
Proof.
  unfold join. destruct l as [|s' l]; simpl; [by rewrite app_empty_r|done].
Qed.

Lemma join_app l1 l2 : join (l1 ++ l2) = join l1 +:+ join l2.
Proof.
  induction l1 as [|s l1 IH]; [done|].
  rewrite <- app_comm_cons, !join_cons, IH. by rewrite str_app_assoc.
Qed.

Lemma join_snoc l s : join (l ++ [s]) = join l +:+ s.
Proof. by rewrite join_app, join_cons, join_nil, app_empty_r. Qed.

(** ** Inverting computations *)

Lemma bind_Ok {R A B} (c : comp R A) (k : A → comp R B) r b r' :
  bind c k r = Ok (b, r') ↔ ∃ a r1, c r = Ok (a, r1) ∧ k a r1 = Ok (b, r').
Proof.
  unfold bind. split.
  - destruct (c r) as [[a r1]| |]; [eauto|done..].
  - intros (a & r1 & -> & Hk). done.
Qed.

Lemma getitem_Ok {R A} (l : list A) i (r : R) x r' :
  getitem l i r = Ok (x, r') ↔ l !! i = Some x ∧ r' = r.
Proof.
  unfold getitem, ret, raise. destruct (l !! i); naive_solver.
Qed.

Lemma lift_Ok {R A} (o : outcome A) (r : R) a r' :
  lift o r = Ok (a, r') ↔ o = Ok a ∧ r' = r.
Proof. unfold lift. destruct o; naive_solver. Qed.

Lemma str_getitem_Ok {R} s i (r : R) c r' :
  str_getitem s i r = Ok (c, r')
  ↔ ∃ a, String.get i s = Some a ∧ c = chr a ∧ r' = r.
Proof.
  unfold str_getitem, ret, raise. destruct (String.get i s); naive_solver.
Qed.

Section NumpyFacts.
Context {R : Type} `{RandomSource R}.

Lemma randint_Ok high (r : R) i r' :
  randint high r = Ok (i, r') ↔ 0 < high ∧ draw high r = (i, r').
Proof.
  unfold randint, raise. destruct high; [naive_solver lia|].
  split; [intros [= Hd]; split; [lia|done]|intros [_ ->]; done].
Qed.

Lemma randint_lt high (r : R) i r' : randint high r = Ok (i, r') → i < high.
Proof.
  intros [Hpos Hd]%randint_Ok.
  pose proof (draw_lt high r Hpos) as Hlt. by rewrite Hd in Hlt.
Qed.

Lemma choice_Ok {A} (a : list A) (r : R) x r' :
  choice a r = Ok (x, r')
  ↔ ∃ i, draw (length a) r = (i, r') ∧ a !! i = Some x.
Proof.
  unfold choice, raise. destruct a as [|y a].
  - split; [done|]. by intros (i & _ & ?).
  - rewrite bind_Ok. split.
    + intros (i & r1 & [= Hd] & [Hx ->]%getitem_Ok). eauto.
    + intros (i & Hd & Hx). exists i, r'. rewrite Hd, getitem_Ok. done.
Qed.
End NumpyFacts.

(** ** The generator loop *)

Section GeneratorFacts.
Context {R : Type} `{RandomSource R}.

(** What one iteration of the loop does, read off a successful run. *)
Lemma while_loop_stop fuel g out (r : R) s r' :
  while_loop fuel g None out r = Ok (s, r') ↔ 0 < fuel ∧ s = join out ∧ r' = r.
Proof.
  destruct fuel as [|fuel]; simpl; [naive_solver lia|].
  unfold ret. split; [intros [= <- <-]; split; [lia|done]|].
  intros (_ & -> & ->). done.
Qed.

Lemma while_loop_step fuel g st out (r : R) s r' :
  while_loop fuel g (Some st) out r = Ok (s, r')
  ↔ ∃ fuel' transitions index r1 production state,
      fuel = S fuel'
      ∧ g !! st = Some transitions
      ∧ randint (length transitions) r = Ok (index, r1)
      ∧ transitions !! index = Some (production, state)
      ∧ match production with
        | Sym c => while_loop fuel' g state (out ++ [c]) r1 = Ok (s, r')
        | Sub g' =>
            ∃ sub r2,
              while_loop fuel' g' (Some 0) [] r1 = Ok (sub, r2)
              ∧ while_loop fuel' g state (out ++ [sub]) r2 = Ok (s, r')
        end.
Proof.
  destruct fuel as [|fuel]; simpl.
  { split; [done|]. by intros (? & ? & ? & ? & ? & ? & ? & _). }
  rewrite bind_Ok. split.
  - intros (transitions & r0 & [Hg ->]%getitem_Ok & Hrest).
    apply bind_Ok in Hrest as (index & r1 & Hidx & Hrest).
    apply bind_Ok in Hrest as ([production state] & r2 & [Ht ->]%getitem_Ok & Hrest).
    exists fuel, transitions, index, r1, production, state.
    repeat split; try done.
    destruct production as [c|g']; [done|].
    by apply bind_Ok in Hrest.
  - intros (fuel' & transitions & index & r1 & production & state
            & [= <-] & Hg & Hidx & Ht & Hrest).
    exists transitions, r. split; [by apply getitem_Ok|].
    apply bind_Ok. exists index, r1. split; [done|].
    apply bind_Ok. exists (production, state), r1.
    split; [by apply getitem_Ok|].
    destruct production as [c|g']; [done|]. by apply bind_Ok.
Qed.

(** The output collected so far is only ever extended: a run entered
    with [out] is the run entered with the empty output, prefixed. *)
Lemma while_loop_output fuel g state out (r : R) s r' :
  while_loop fuel g state out r = Ok (s, r')
  ↔ ∃ w, while_loop fuel g state [] r = Ok (w, r') ∧ s = join out +:+ w.
Proof.
  revert state out r s.
  induction fuel as [|fuel IH]; intros state out r s.
  { simpl. naive_solver. }
  destruct state as [st|].
  - rewrite !while_loop_step. split.
    + intros (fuel' & trs & idx & r1 & p & nxt & [= <-] & Hg & Hidx & Ht & Hrest).
      destruct p as [c|g'].
      * apply IH in Hrest as (w & Hw & ->).
        exists (c +:+ w). split; [|by rewrite join_snoc, str_app_assoc].
        apply while_loop_step.
        exists fuel, trs, idx, r1, (Sym c), nxt. repeat split; try done.
        apply IH. exists w. by rewrite join_snoc.
      * destruct Hrest as (sub & r2 & Hsub & Hrest).
        apply IH in Hrest as (w & Hw & ->).
        exists (sub +:+ w). split; [|by rewrite join_snoc, str_app_assoc].
        apply while_loop_step.
        exists fuel, trs, idx, r1, (Sub g'), nxt. repeat split; try done.
        exists sub, r2. split; [done|].
        apply IH. exists w. by rewrite join_snoc.
    + intros (w & Hw & ->).
      apply while_loop_step in Hw
        as (fuel' & trs & idx & r1 & p & nxt & [= <-] & Hg & Hidx & Ht & Hrest).
      exists fuel, trs, idx, r1, p, nxt. repeat split; try done.
      destruct p as [c|g'].
      * apply IH in Hrest as (w' & Hw' & ->).
        apply IH. exists w'. split; [done|].
        rewrite !join_snoc, join_nil, app_empty_l. by rewrite str_app_assoc.
      * destruct Hrest as (sub & r2 & Hsub & Hrest).
        exists sub, r2. split; [done|].
        apply IH in Hrest as (w' & Hw' & ->).
        apply IH. exists w'. split; [done|].
        rewrite !join_snoc, join_nil, app_empty_l. by rewrite str_app_assoc.
  - rewrite while_loop_stop. split.
    + intros (_ & -> & ->). exists "". rewrite app_empty_r.
      split; [|done]. apply while_loop_stop. split; [lia|done].
    + intros (w & Hw & ->). apply while_loop_stop in Hw as (_ & -> & ->).
      rewrite join_nil, app_empty_r. split; [lia|done].
Qed.
End GeneratorFacts.

(** ** Matching *)

Lemma strip_prefix_app p s : strip_prefix p (p +:+ s) = Some s.
Proof.
  induction p as [|a p IH]; simpl; [by destruct s|].
  by rewrite Ascii.eqb_refl.
Qed.

Lemma strip_prefix_Some p s rest : strip_prefix p s = Some rest → s = p +:+ rest.
Proof.
  revert s; induction p as [|a p IH]; intros [|b s]; simpl;
    try done; try (by intros [= <-]).
  destruct (Ascii.eqb_spec a b) as [->|]; [|done].
  intros Hrest. by rewrite (IH _ Hrest).
Qed.

Lemma run_forward_mono fuel budget g state s :
  fuel ≤ budget → run_forward fuel g state s ⊆ run_forward budget g state s.
Proof.
  revert budget g state s.
  induction fuel as [|fuel IH]; intros budget g state s Hle t; simpl.
  { by intros ?%elem_of_nil. }
  destruct budget as [|budget]; [lia|]. simpl.
  destruct state as [st|]; [|done].
  destruct (g !! st) as [transitions|]; [|done].
  rewrite !list_elem_of_bind.
  intros ([production state] & Ht & Hin). exists (production, state).
  split; [|done]. destruct production as [c|g'].
  - destruct (strip_prefix c s) as [rest|]; [|done].
    revert Ht. apply IH. lia.
  - revert Ht. rewrite !list_elem_of_bind.
    intros (rest & Hrest & Hsub). exists rest. split.
    + revert Hrest. apply IH. lia.
    + revert Hsub. apply IH. lia.
Qed.

(** Running forward only accepts what the grammar derives. *)
Lemma run_forward_derives fuel g state s rest :
  rest ∈ run_forward fuel g state s → ∃ w, s = w +:+ rest ∧ derives g state w.
Proof.
  revert g state s rest.
  induction fuel as [|fuel IH]; intros g state s rest; simpl.
  { by intros ?%elem_of_nil. }
  destruct state as [st|].
  - destruct (g !! st) as [transitions|] eqn:Hg; [|by intros ?%elem_of_nil].
    rewrite list_elem_of_bind.
    intros ([production state] & Ht & Hin). destruct production as [c|g'].
    + destruct (strip_prefix c s) as [rest'|] eqn:Hc; [|by apply elem_of_nil in Ht].
      apply strip_prefix_Some in Hc as ->.
      apply IH in Ht as (w & -> & Hw). exists (c +:+ w).
      split; [by rewrite str_app_assoc|]. by eapply derives_sym.
    + apply list_elem_of_bind in Ht as (mid & Hrest & Hsub).
      apply IH in Hsub as (sub & -> & Hsub).
      apply IH in Hrest as (w & -> & Hw). exists (sub +:+ w).
      split; [by rewrite str_app_assoc|]. by eapply derives_sub.
  - intros ->%list_elem_of_singleton. exists "". split; [done|constructor].
Qed.

Section GeneratorMatches.
Context {R : Type} `{RandomSource R}.

(** Every run of the loop emits, after the output it was entered with,
    a string that running forward from the same state consumes. *)
Lemma while_loop_run_forward fuel g state out (r : R) s r' :
  while_loop fuel g state out r = Ok (s, r') →
  ∃ w, s = join out +:+ w ∧ ∀ rest, rest ∈ run_forward fuel g state (w +:+ rest).
Proof.
  revert g state out r s r'.
  induction fuel as [|fuel IH]; intros g state out r s r'; [done|].
  destruct state as [st|].
  - intros (fuel' & trs & idx & r1 & p & nxt & [= <-] & Hg & Hidx & Ht & Hrest)
      %while_loop_step.
    apply list_elem_of_lookup_2 in Ht.
    destruct p as [c|g'].
    + apply IH in Hrest as (w & -> & Hw). exists (c +:+ w).
      split; [by rewrite join_snoc, str_app_assoc|].
      intros rest. simpl. rewrite Hg. apply list_elem_of_bind.
      exists (Sym c, nxt). split; [|done].
      by rewrite str_app_assoc, strip_prefix_app.
    + destruct Hrest as (sub & r2 & Hsub & Hrest).
      apply IH in Hsub as (sub' & -> & Hsub).
      apply IH in Hrest as (w & -> & Hw).
      rewrite join_nil, app_empty_l. exists (sub' +:+ w).
      split; [by rewrite join_snoc, str_app_assoc|].
      intros rest. simpl. rewrite Hg. apply list_elem_of_bind.
      exists (Sub g', nxt). split; [|done].
      apply list_elem_of_bind. exists (w +:+ rest).
      split; [done|]. by rewrite str_app_assoc.
  - intros (_ & -> & ->)%while_loop_stop. exists "".
    split; [by rewrite app_empty_r|]. intros rest. simpl.
    by apply list_elem_of_singleton.
Qed.

Lemma generate_string_matches fuel g (r : R) s r' :
  generate_string fuel g r = Ok (s, r') →
  ∀ budget, fuel ≤ budget → matches budget g s = true.
Proof.
  intros (w & -> & Hw)%while_loop_run_forward budget Hle.
  apply bool_decide_eq_true. apply (run_forward_mono fuel); [done|].
  rewrite join_nil, app_empty_l. specialize (Hw ""). by rewrite app_empty_r in Hw.
Qed.

Lemma generate_string_derives fuel g (r : R) s r' :
  generate_string fuel g r = Ok (s, r') → derives g (Some 0) s.
Proof.
  intros Hgen. pose proof (generate_string_matches _ _ _ _ _ Hgen fuel (le_n _)) as Hm.
  apply bool_decide_eq_true, run_forward_derives in Hm as (w & -> & Hw).
  by rewrite app_empty_r.
Qed.
End GeneratorMatches.

(** C1. Every string that [generate_string] produces on the default Reber
    grammar is a derivation of that grammar: run forward through the
    transition table from state 0 (with any step budget at least that of
    the generator), it reaches the terminal next state with no symbol left
    over. *)
Theorem generate_string_default_matches {R : Type} `{RandomSource R}
    fuel (r : R) s r' :
  generate_string fuel default_reber_grammar r = Ok (s, r') →
  ∀ budget, fuel ≤ budget → matches budget default_reber_grammar s = true.
Proof.
  intros Hgen budget Hle. unfold generate_string in Hgen.
  apply while_loop_run_forward in Hgen as (w & -> & Hw).
  rewrite join_nil, app_empty_l.
  apply bool_decide_eq_true, (run_forward_mono fuel); [done|].
  specialize (Hw ""). by rewrite app_empty_r in Hw.
Qed.

Lemma generate_string_default_matches_witness :
  generate_string 20 default_reber_grammar [7; 0; 0; 1; 1; 0] = Ok ("BTSXSE", [])
  ∧ matches 25 default_reber_grammar "BTSXSE" = true.
Proof.
  split; [vm_compute; reflexivity|].
  apply (generate_string_default_matches 20 [7; 0; 0; 1; 1; 0] "BTSXSE" []).
  - vm_compute; reflexivity.
  - lia.
Defined.

Example default_rejects_truncated : matches 25 default_reber_grammar "BTXS" = false.
Proof. vm_compute. reflexivity. Qed.

Example default_rejects_trailing : matches 25 default_reber_grammar "BTXSEE" = false.
Proof. vm_compute. reflexivity. Qed.

Example embedded_accepts : matches 25 embedded_reber_grammar "BTBPVVETE" = true.
Proof. vm_compute. reflexivity. Qed.

Example embedded_rejects_mismatch : matches 25 embedded_reber_grammar "BTBPVVEPE" = false.
Proof. vm_compute. reflexivity. Qed.

(** ** The corrupter *)

Lemma elem_of_py_set a s : a ∈ py_set s ↔ a ∈ explode s.
Proof. unfold py_set. apply elem_of_list_to_set. Qed.

Lemma explode_chr a : explode (chr a) = [a].
Proof. done. Qed.

Lemma chr_inj a b : chr a = chr b → a = b.
Proof. by intros [= ->]. Qed.

(** The candidates for the replacement are the characters of [chars]
    other than the one being replaced. *)
Lemma elem_of_sorted c chars good_char :
  c ∈ sorted (py_set chars ∖ py_set (chr good_char))
  ↔ ∃ b, c = chr b ∧ b ∈ explode chars ∧ b ≠ good_char.
Proof.
  unfold sorted. rewrite list_elem_of_fmap.
  apply exist_proper; intros b. apply and_iff_compat_l.
  rewrite merge_sort_Permutation, elem_of_elements, elem_of_difference.
  rewrite !elem_of_py_set, explode_chr, list_elem_of_singleton. done.
Qed.

(** [sorted] does not depend on the order in which the set is iterated:
    any enumeration of the set sorts to the same list. *)
Instance ascii_le_total : Total ascii_le.
Proof. intros a b. unfold ascii_le. lia. Qed.

Instance ascii_le_trans : Transitive ascii_le.
Proof. intros a b c. unfold ascii_le. lia. Qed.

Instance ascii_le_antisym : AntiSymm (=) ascii_le.
Proof.
  intros a b Hab Hba. unfold ascii_le in *.
  rewrite <- (ascii_nat_embedding a), <- (ascii_nat_embedding b).
  f_equal. lia.
Qed.

Lemma sorted_order_irrelevant (S : gset ascii) (l : list ascii) :
  l ≡ₚ elements S → chr <$> merge_sort ascii_le l = sorted S.
Proof.
  intros Hl. unfold sorted. f_equal.
  apply (Sorted_unique ascii_le); [apply Sorted_merge_sort; apply _..|].
  by rewrite !merge_sort_Permutation.
Qed.

Example sorted_candidates :
  sorted (py_set "XVTBBEPS" ∖ py_set "T") = ["B"; "E"; "P"; "S"; "V"; "X"].
Proof. vm_compute. reflexivity. Qed.

(** Replacing position [i] of a string, on its characters. *)
Lemma explode_replace s i b :
  i < len s →
  explode (slice_to s i +:+ chr b +:+ slice_from s (i + 1))
  = <[i:=b]> (explode s).
Proof.
  intros Hi. rewrite !explode_app, explode_slice_to, explode_slice_from.
  rewrite explode_chr, Nat.add_1_r. symmetry. apply insert_take_drop.
  by rewrite explode_length.
Qed.

(** C2. Every output of [generate_corrupted_string] has the length of the
    string [generate_string] produced for it, which is at least 1; it
    differs from that string at exactly one position, where it holds a
    character of the alphabet other than the original one; every other
    position is unchanged. *)
Theorem generate_corrupted_string_one_flip {R : Type} `{RandomSource R}
    fuel g chars (r : R) bad r' :
  generate_corrupted_string fuel g chars r = Ok (bad, r') →
  ∃ good r1 i a b,
    generate_string fuel g r = Ok (good, r1)
    ∧ 1 ≤ len good
    ∧ len bad = len good
    ∧ i < len good
    ∧ String.get i good = Some a
    ∧ String.get i bad = Some b
    ∧ b ∈ explode chars
    ∧ b ≠ a
    ∧ ∀ j, j ≠ i → String.get j bad = String.get j good.
Proof.
  unfold generate_corrupted_string.
  intros (good & r1 & Hgood & Hrest)%bind_Ok.
  apply bind_Ok in Hrest as (i & r2 & Hi & Hrest).
  apply bind_Ok in Hrest as (good_char & r3 & Hc & Hrest).
  apply bind_Ok in Hrest as (bad_char & r4 & Hb & [= <- <-]).
  apply str_getitem_Ok in Hc as (a & Ha & -> & ->).
  apply choice_Ok in Hb as (k & _ & Hk).
  apply list_elem_of_lookup_2, elem_of_sorted in Hk as (b & -> & Hb & Hne).
  assert (i < len good) as Hlt.
  { rewrite explode_get in Ha. apply lookup_lt_Some in Ha.
    by rewrite explode_length in Ha. }
  exists good, r1, i, a, b. repeat split; try done.
  - lia.
  - by rewrite <- !explode_length, explode_replace, length_insert.
  - rewrite explode_get, explode_replace by done.
    apply list_lookup_insert_eq. by rewrite explode_length.
  - intros j Hj. rewrite !explode_get, explode_replace by done.
    by apply list_lookup_insert_ne.
Qed.

Lemma generate_corrupted_string_one_flip_witness :
  ∃ good r1 i a b,
    generate_string 20 default_reber_grammar [7; 0; 0; 1; 1; 0; 2; 3]
    = Ok (good, r1)
    ∧ 1 ≤ len good
    ∧ len "BTTXSE" = len good
    ∧ i < len good
    ∧ String.get i good = Some a
    ∧ String.get i "BTTXSE" = Some b
    ∧ b ∈ explode POSSIBLE_CHARS
    ∧ b ≠ a
    ∧ ∀ j, j ≠ i → String.get j "BTTXSE" = String.get j good.
Proof.
  apply (generate_corrupted_string_one_flip
           20 default_reber_grammar POSSIBLE_CHARS [7; 0; 0; 1; 1; 0; 2; 3]
           "BTTXSE" []).
  vm_compute. reflexivity.
Defined.

(** ** The dataset *)


Lemma const_fmap_seq {A} (x : A) n : (λ _, x) <$> seq 0 n = replicate n x.
Proof.
  generalize 0. induction n as [|n IH]; intros k; simpl; [done|].
  by rewrite IH.
Qed.



Section DatasetFacts.
Context {R : Type} `{RandomSource R}.


End DatasetFacts.

(** Size 0 and every negative size return at once. *)
Example generate_dataset_0 :
  generate_dataset 20 0 [3; 1; 4] = Ok ([], [], [3; 1; 4]).
Proof. vm_compute. reflexivity. Qed.

(** ** The encoder *)

Lemma index_chr_cons a b s :
  String.index 0 (chr a) (String b s)
  = if decide (a = b) then Some 0 else S <$> String.index 0 (chr a) s.
Proof.
  simpl. destruct (ascii_dec a b) as [->|Hne].
  - rewrite decide_True by done. by destruct s.
  - rewrite decide_False by done. by destruct (String.index 0 (chr a) s).
Qed.

(** [chars.index(c)] is the position of the first occurrence of [c]. *)
Lemma index_chr_Some a s k :
  String.index 0 (chr a) s = Some k
  ↔ explode s !! k = Some a ∧ ∀ j, j < k → explode s !! j ≠ Some a.
Proof.
  revert k; induction s as [|b s IH]; intros k.
  { simpl. split; [done|]. by intros [? _]. }
  rewrite index_chr_cons. destruct (decide (a = b)) as [->|Hne].
  - split.
    + intros [= <-]. split; [done|]. lia.
    + intros [Hk Hfirst]. destruct k as [|k]; [done|].
      by destruct (Hfirst 0); [lia|].
  - destruct k as [|k].
    + split; [by destruct (String.index 0 (chr a) s)|].
      intros [[= ->] _]. done.
    + split.
      * intros Hs.
        destruct (String.index 0 (chr a) s) as [k'|]; [|done].
        injection Hs as ->. destruct (proj1 (IH k) eq_refl) as [Hk Hfirst].
        split; [done|]. intros [|j] Hj; simpl; [congruence|].
        apply Hfirst. lia.
      * intros [Hk Hfirst].
        assert (String.index 0 (chr a) s = Some k) as ->; [|done].
        apply IH. split; [done|]. intros j Hj. apply (Hfirst (S j)). lia.
Qed.

Lemma index_chr_None a s : String.index 0 (chr a) s = None ↔ a ∉ explode s.
Proof.
  induction s as [|b s IH].
  { simpl. split; [intros _; apply not_elem_of_nil|done]. }
  change (explode (String b s)) with (b :: explode s).
  rewrite index_chr_cons, not_elem_of_cons, <- IH.
  destruct (decide (a = b)) as [->|Hne]; [naive_solver|].
  destruct (String.index 0 (chr a) s); naive_solver.
Qed.

Lemma str_index_Ok chars a k :
  str_index chars (chr a) = Ok k
  ↔ explode chars !! k = Some a ∧ ∀ j, j < k → explode chars !! j ≠ Some a.
Proof.
  rewrite <- index_chr_Some. unfold str_index.
  destruct (String.index 0 (chr a) chars); naive_solver.
Qed.

Lemma str_index_Raise chars a e :
  str_index chars (chr a) = Raise e ↔ e = ValueError ∧ a ∉ explode chars.
Proof.
  rewrite <- index_chr_None. unfold str_index.
  destruct (String.index 0 (chr a) chars); naive_solver.
Qed.

Lemma str_index_converges chars c : str_index chars c ≠ Diverge.
Proof. unfold str_index. by destruct (String.index 0 c chars). Qed.

(** The encoder on the characters of its input, one at a time. *)
Lemma string_to_ids_nil chars : string_to_ids "" chars = Ok [].
Proof. done. Qed.

Lemma string_to_ids_cons a s chars :
  string_to_ids (String a s) chars
  = match str_index chars (chr a) with
    | Ok k => match string_to_ids s chars with
              | Ok ids => Ok (k :: ids)
              | Raise e => Raise e
              | Diverge => Diverge
              end
    | Raise e => Raise e
    | Diverge => Diverge
    end.
Proof. done. Qed.

Lemma string_to_ids_Ok s chars ids :
  string_to_ids s chars = Ok ids
  ↔ length ids = len s
    ∧ ∀ i a, explode s !! i = Some a →
        ∃ k, ids !! i = Some k
             ∧ explode chars !! k = Some a
             ∧ ∀ j, j < k → explode chars !! j ≠ Some a.
Proof.
  revert ids; induction s as [|a s IH]; intros ids.
  { rewrite string_to_ids_nil. split.
    - intros [= <-]. split; [done|]. by intros i a.
    - intros [Hlen _]. by destruct ids. }
  rewrite string_to_ids_cons. split.
  - destruct (str_index chars (chr a)) as [k| |] eqn:Hk; [|done..].
    destruct (string_to_ids s chars) as [ids'| |]; [|done..].
    intros [= <-]. destruct (proj1 (IH ids') eq_refl) as [Hlen Hids].
    split; [simpl; by rewrite Hlen|].
    intros [|i] b; simpl.
    + intros [= <-]. exists k. split; [done|]. by apply str_index_Ok.
    + apply Hids.
  - intros [Hlen Hids]. destruct ids as [|k ids]; [done|].
    destruct (Hids 0 a eq_refl) as (k' & [= <-] & Hk).
    apply str_index_Ok in Hk as ->.
    assert (string_to_ids s chars = Ok ids) as ->; [|done].
    apply IH. split; [simpl in Hlen; lia|].
    intros i b Hb. apply (Hids (S i) b Hb).
Qed.

Lemma string_to_ids_Raise s chars e :
  string_to_ids s chars = Raise e
  ↔ e = ValueError ∧ ∃ a, a ∈ explode s ∧ a ∉ explode chars.
Proof.
  induction s as [|a s IH].
  { rewrite string_to_ids_nil. split; [done|].
    by intros (_ & a & ?%elem_of_nil & _). }
  rewrite string_to_ids_cons.
  destruct (str_index chars (chr a)) as [k| |] eqn:Hk.
  - apply str_index_Ok in Hk as [Hk%list_elem_of_lookup_2 _].
    destruct (string_to_ids s chars) as [ids| |].
    + split; [done|]. intros (-> & b & Hb & Hnot).
      enough (@Ok (list nat) ids = Raise ValueError) by done.
      apply IH. split; [done|]. exists b. split; [|done].
      simpl in Hb. apply elem_of_cons in Hb as [->|Hb]; done.
    + rewrite IH. split.
      * intros (-> & b & Hb & Hnot). split; [done|]. exists b.
        split; [|done]. simpl. by apply elem_of_cons; right.
      * intros (-> & b & Hb & Hnot). split; [done|]. exists b.
        split; [|done]. simpl in Hb. apply elem_of_cons in Hb as [->|Hb]; done.
    + split; [done|]. intros (-> & b & Hb & Hnot).
      enough (@Diverge (list nat) = Raise ValueError) by done.
      apply IH. split; [done|]. exists b. split; [|done].
      simpl in Hb. apply elem_of_cons in Hb as [->|Hb]; done.
  - apply str_index_Raise in Hk as [-> Hnot]. split.
    + intros [= <-]. split; [done|]. exists a. split; [|done].
      simpl. apply elem_of_cons. by left.
    + by intros (-> & _).
  - by apply str_index_converges in Hk.
Qed.

Lemma string_to_ids_converges s chars : string_to_ids s chars ≠ Diverge.
Proof.
  induction s as [|a s IH]; [done|]. rewrite string_to_ids_cons.
  pose proof (str_index_converges chars (chr a)).
  destruct (str_index chars (chr a)); [|done..].
  by destruct (string_to_ids s chars).
Qed.

Lemma string_to_ids_known s chars :
  (∀ a, a ∈ explode s → a ∈ explode chars) →
  ∃ ids, string_to_ids s chars = Ok ids.
Proof.
  intros Hs. destruct (string_to_ids s chars) as [ids|e|] eqn:Hids.
  - by exists ids.
  - apply string_to_ids_Raise in Hids as (_ & a & Ha & Hnot).
    by destruct Hnot; apply Hs.
  - by apply string_to_ids_converges in Hids.
Qed.

(** C4. When every symbol of the input belongs to the alphabet,
    [string_to_ids] returns a sequence of the length of the input whose
    entry [i] is the zero-based position of symbol [i] in the alphabet
    (its first occurrence there); with the alphabet "BEPSTVX" the string
    "BTTTXXVVETE" is encoded as [0,4,4,4,6,6,5,5,1,4,1]. *)
Theorem string_to_ids_alphabet_index s chars :
  (∀ a, a ∈ explode s → a ∈ explode chars) →
  ∃ ids,
    string_to_ids s chars = Ok ids
    ∧ length ids = len s
    ∧ (∀ i a, String.get i s = Some a →
         ∃ k, ids !! i = Some k
              ∧ String.get k chars = Some a
              ∧ ∀ j, j < k → String.get j chars ≠ Some a)
    ∧ string_to_ids "BTTTXXVVETE" "BEPSTVX"
      = Ok [0; 4; 4; 4; 6; 6; 5; 5; 1; 4; 1].
Proof.
  intros Hs. destruct (string_to_ids_known s chars Hs) as [ids Hids].
  exists ids. split; [done|].
  apply string_to_ids_Ok in Hids as [Hlen Hids].
  split_and!; [done| |done].
  intros i a Ha. rewrite explode_get in Ha.
  destruct (Hids i a Ha) as (k & Hk & Hchars & Hfirst).
  exists k. split_and!; [done|by rewrite explode_get|].
  intros j Hj. rewrite explode_get. by apply Hfirst.
Qed.

Lemma string_to_ids_alphabet_index_witness :
  ∃ ids,
    string_to_ids "BTTTXXVVETE" POSSIBLE_CHARS = Ok ids
    ∧ length ids = len "BTTTXXVVETE"
    ∧ (∀ i a, String.get i "BTTTXXVVETE" = Some a →
         ∃ k, ids !! i = Some k
              ∧ String.get k POSSIBLE_CHARS = Some a
              ∧ ∀ j, j < k → String.get j POSSIBLE_CHARS ≠ Some a)
    ∧ string_to_ids "BTTTXXVVETE" "BEPSTVX"
      = Ok [0; 4; 4; 4; 6; 6; 5; 5; 1; 4; 1].
Proof.
  apply (string_to_ids_alphabet_index "BTTTXXVVETE" POSSIBLE_CHARS).
  apply Forall_forall, (bool_decide_unpack _). vm_compute. reflexivity.
Defined.

(** C5. [string_to_ids] fails, with the [ValueError] of [str.index], exactly
    when some symbol of the input is absent from the alphabet, and returns
    a sequence exactly when none is; as soon as an absent symbol is met
    the error is the outcome, whatever follows it. *)
Theorem string_to_ids_unknown_symbol s chars :
  (string_to_ids s chars = Raise ValueError
   ↔ ∃ a, a ∈ explode s ∧ a ∉ explode chars)
  ∧ ((∃ ids, string_to_ids s chars = Ok ids)
     ↔ ∀ a, a ∈ explode s → a ∈ explode chars)
  ∧ (∀ e, string_to_ids s chars = Raise e ↔ 
          e = ValueError ∧ ∃ a, a ∈ explode s ∧ a ∉ explode chars)
  ∧ string_to_ids s chars ≠ Diverge.
Proof.
  split_and!.
  - rewrite string_to_ids_Raise. naive_solver.
  - split.
    + intros [ids Hids] a Ha.
      destruct (decide (a ∈ explode chars)) as [|Hnot]; [done|].
      assert (string_to_ids s chars = Raise ValueError) as Hraise.
      { apply string_to_ids_Raise. eauto. }
      congruence.
    + apply string_to_ids_known.
  - apply string_to_ids_Raise.
  - apply string_to_ids_converges.
Qed.

Example string_to_ids_rejects : string_to_ids "BTAXSE" POSSIBLE_CHARS = Raise ValueError.
Proof. vm_compute. reflexivity. Qed.

(** ** Negative sizes *)

(** C6, as the design document states it, fails: a negative size is not
    rejected. *)
Lemma generate_dataset_negative_not_rejected :
  ¬ ∃ e, generate_dataset 20 (-3) [3; 1; 4] = Raise e.
Proof. intros [e He]. vm_compute in He. discriminate. Qed.

(** C6, amended. For a negative size, [generate_dataset] raises nothing
    and returns the empty dataset; no string is generated and the random
    source is left in the state it was in. *)
Theorem generate_dataset_negative_empty {R : Type} `{RandomSource R}
    fuel size (r : R) :
  (size < 0)%Z → generate_dataset fuel size r = Ok ([], [], r).
Proof.
  intros Hsize. unfold generate_dataset.
  assert (size / 2 < 0 ∧ size - size / 2 ≤ 0)%Z as [Hgood Hbad]
    by (Z.div_mod_to_equations; lia).
  replace (Z.to_nat (size / 2)) with 0 by lia.
  replace (Z.to_nat (size - size / 2)) with 0 by lia.
  reflexivity.
Qed.

Lemma generate_dataset_negative_empty_witness :
  generate_dataset 20 (-3) [3; 1; 4] = Ok ([], [], [3; 1; 4]).
Proof. apply (generate_dataset_negative_empty 20 (-3) [3; 1; 4]). lia. Defined.

(** ** Determinism *)

Section Determinism.
Context {R1 R2 : Type} `{RandomSource R1} `{RandomSource R2}.
Variable same : R1 → R2 → Prop.
Hypothesis Hsame : same_draws same.

Lemma in_step_ret {A} (a : A) : in_step same (ret a) (ret a).
Proof. by intros r1 r2 Hr. Qed.

Lemma in_step_raise {A} e : in_step (A:=A) same (raise e) (raise e).
Proof. by intros r1 r2 Hr. Qed.

Lemma in_step_bind {A B} (c1 : comp R1 A) (c2 : comp R2 A)
    (k1 : A → comp R1 B) (k2 : A → comp R2 B) :
  in_step same c1 c2 → (∀ a, in_step same (k1 a) (k2 a)) → in_step same (bind c1 k1) (bind c2 k2).
Proof.
  intros Hc Hk r1 r2 Hr. unfold bind. specialize (Hc r1 r2 Hr).
  destruct (c1 r1) as [[a1 r1']|e1|], (c2 r2) as [[a2 r2']|e2|]; try done.
  destruct Hc as [<- Hr']. by apply Hk.
Qed.

Lemma in_step_getitem {A} (l : list A) i : in_step same (getitem l i) (getitem l i).
Proof.
  unfold getitem. destruct (l !! i); [apply in_step_ret|apply in_step_raise].
Qed.

Lemma in_step_lift {A} (o : outcome A) : in_step same (lift o) (lift o).
Proof. intros r1 r2 Hr. unfold lift. by destruct o. Qed.

Lemma in_step_str_getitem s i : in_step same (str_getitem s i) (str_getitem s i).
Proof.
  unfold str_getitem.
  destruct (String.get i s); [apply in_step_ret|apply in_step_raise].
Qed.

Lemma in_step_draw high :
  in_step same (λ r, Ok (draw high r)) (λ r, Ok (draw high r)).
Proof.
  intros r1 r2 Hr. destruct (Hsame high r1 r2 Hr) as [Hv Hr'].
  destruct (draw high r1), (draw high r2). done.
Qed.

Lemma in_step_randint high : in_step same (randint high) (randint high).
Proof.
  unfold randint. destruct high; [apply in_step_raise|apply in_step_draw].
Qed.

Lemma in_step_choice {A} (a : list A) : in_step same (choice a) (choice a).
Proof.
  unfold choice. destruct a as [|x a]; [apply in_step_raise|].
  apply in_step_bind; [apply in_step_draw|]. intros i. apply in_step_getitem.
Qed.

Lemma in_step_comprehension {A} n (c1 : comp R1 A) (c2 : comp R2 A) :
  in_step same c1 c2 → in_step same (comprehension n c1) (comprehension n c2).
Proof.
  intros Hc. induction n as [|n IH]; simpl; [apply in_step_ret|].
  apply in_step_bind; [done|]. intros x.
  apply in_step_bind; [done|]. intros xs. apply in_step_ret.
Qed.

Lemma in_step_while_loop fuel g state out :
  in_step same (while_loop fuel g state out) (while_loop fuel g state out).
Proof.
  revert g state out. induction fuel as [|fuel IH]; intros g state out; simpl.
  { by intros r1 r2 Hr. }
  destruct state as [st|]; [|apply in_step_ret].
  apply in_step_bind; [apply in_step_getitem|]. intros transitions.
  apply in_step_bind; [apply in_step_randint|]. intros index.
  apply in_step_bind; [apply in_step_getitem|]. intros [[c|g'] state].
  - apply IH.
  - apply in_step_bind; [apply IH|]. intros sub. apply IH.
Qed.

Lemma in_step_generate_string fuel g :
  in_step same (generate_string fuel g) (generate_string fuel g).
Proof. apply in_step_while_loop. Qed.

Lemma in_step_generate_corrupted_string fuel g chars :
  in_step same (generate_corrupted_string fuel g chars)
          (generate_corrupted_string fuel g chars).
Proof.
  unfold generate_corrupted_string.
  apply in_step_bind; [apply in_step_generate_string|]. intros good_string.
  apply in_step_bind; [apply in_step_randint|]. intros index.
  apply in_step_bind; [apply in_step_str_getitem|]. intros good_char.
  apply in_step_bind; [apply in_step_choice|]. intros bad_char.
  apply in_step_ret.
Qed.

Lemma in_step_generate_dataset fuel size :
  in_step same (generate_dataset fuel size) (generate_dataset fuel size).
Proof.
  unfold generate_dataset.
  apply in_step_bind.
  { apply in_step_comprehension.
    apply in_step_bind; [apply in_step_generate_string|].
    intros s. apply in_step_lift. }
  intros good_strings. apply in_step_bind.
  { apply in_step_comprehension.
    apply in_step_bind; [apply in_step_generate_corrupted_string|].
    intros s. apply in_step_lift. }
  intros bad_strings. apply in_step_ret.
Qed.

Lemma in_step_run_call fuel c : in_step same (run_call fuel c) (run_call fuel c).
Proof.
  destruct c as [g|g chars|size]; simpl.
  - apply in_step_bind; [apply in_step_generate_string|].
    intros s. apply in_step_ret.
  - apply in_step_bind; [apply in_step_generate_corrupted_string|].
    intros s. apply in_step_ret.
  - apply in_step_bind; [apply in_step_generate_dataset|].
    intros Xy. apply in_step_ret.
Qed.

Lemma in_step_run_calls fuel calls :
  in_step same (run_calls fuel calls) (run_calls fuel calls).
Proof.
  induction calls as [|c calls IH]; simpl; [apply in_step_ret|].
  apply in_step_bind; [apply in_step_run_call|]. intros o.
  apply in_step_bind; [done|]. intros os. apply in_step_ret.
Qed.
End Determinism.

Lemma tape_stream_same_draws : same_draws tape_stream_same.
Proof.
  intros high t [f n] Hsame. unfold tape_stream_same in *. simpl in *.
  destruct t as [|d t]; simpl.
  - split.
    + specialize (Hsame 0). rewrite Nat.add_0_r in Hsame. simpl in Hsame.
      by rewrite <- Hsame, Nat.Div0.mod_0_l.
    + intros i. transitivity (f (n + S i)); [exact (Hsame (S i))|].
      simpl. f_equal. lia.
  - split.
    + specialize (Hsame 0). rewrite Nat.add_0_r in Hsame. simpl in Hsame.
      by rewrite Hsame.
    + intros i. transitivity (f (n + S i)); [exact (Hsame (S i))|].
      simpl. f_equal. lia.
Qed.

Lemma tape_stream_same_start (t : tape) : tape_stream_same t (λ i, nth i t 0, 0).
Proof. intros i. simpl. by rewrite nth_lookup. Qed.

Example run_calls_tape :
  run_calls 20
    [call_generate_string default_reber_grammar;
     call_generate_corrupted_string embedded_reber_grammar POSSIBLE_CHARS;
     call_generate_dataset 1]
    [7; 0; 0; 1; 1; 0;
     0; 0; 0; 0; 0; 1; 1; 0; 0; 0; 0; 1;
     0; 0; 0; 0; 0; 1; 1; 0; 0; 0; 8; 5]
  = Ok ([output_string "BTSXSE"; output_string "PTBTXSETE";
         output_dataset ([[0; 4; 0; 4; 6; 3; 1; 4; 6]], [[0%float]])], []).
Proof. vm_compute. reflexivity. Qed.

(** ** Nested grammars *)

Section NestedGrammars.
Context {R : Type} `{RandomSource R}.

(** What a run emits after the output it was entered with is a derivation
    from the state it was entered in. *)
Lemma while_loop_derives fuel g state out (r : R) s r' :
  while_loop fuel g state out r = Ok (s, r') →
  ∃ w, s = join out +:+ w ∧ derives g state w.
Proof.
  intros (w & -> & Hw)%while_loop_run_forward. exists w. split; [done|].
  destruct (run_forward_derives _ _ _ _ _ (Hw "")) as (w' & Heq & Hd).
  rewrite !app_empty_r in Heq. by subst w'.
Qed.
End NestedGrammars.

(** C8. When the loop of [generate_string] takes a transition whose
    production is a nested grammar, the string it returns is made of the
    output so far, then one whole string [sub] that [generate_string]
    returns for the nested grammar (a run from that grammar's own state 0,
    on the random source as the draw of the transition left it, and a
    complete derivation of the nested grammar), then what the loop emits
    from the transition's next state on. *)
Theorem nested_grammar_substring_appended {R : Type} `{RandomSource R}
    fuel g st out (r : R) transitions index r1 g' state s r' :
  g !! st = Some transitions →
  randint (length transitions) r = Ok (index, r1) →
  transitions !! index = Some (Sub g', state) →
  while_loop (S fuel) g (Some st) out r = Ok (s, r') →
  ∃ sub r2 rest,
    generate_string fuel g' r1 = Ok (sub, r2)
    ∧ derives g' (Some 0) sub
    ∧ while_loop fuel g state (out ++ [sub]) r2 = Ok (s, r')
    ∧ while_loop fuel g state [] r2 = Ok (rest, r')
    ∧ s = join out +:+ sub +:+ rest.
Proof.
  intros Hg Hindex Ht
    (fuel' & trs & idx & r1' & p & nxt & [= <-] & Hg' & Hidx' & Ht' & Hrest)
    %while_loop_step.
  rewrite Hg in Hg'. injection Hg' as <-.
  rewrite Hindex in Hidx'. injection Hidx' as <- <-.
  rewrite Ht in Ht'. injection Ht' as <- <-.
  destruct Hrest as (sub & r2 & Hsub & Hrest).
  pose proof Hrest as (rest & Hloop & ->)%while_loop_output.
  exists sub, r2, rest. split_and!; try done.
  - by eapply generate_string_derives.
  - by rewrite join_snoc, str_app_assoc.
Qed.

Lemma nested_grammar_substring_appended_witness :
  ∃ sub r2 rest,
    generate_string 20 default_reber_grammar [0; 0; 1; 1; 0; 0; 0] = Ok (sub, r2)
    ∧ derives default_reber_grammar (Some 0) sub
    ∧ while_loop 20 embedded_reber_grammar (Some 4) (["B"; "T"] ++ [sub]) r2
      = Ok ("BTBTXSETE", [])
    ∧ while_loop 20 embedded_reber_grammar (Some 4) [] r2 = Ok (rest, [])
    ∧ "BTBTXSETE" = join ["B"; "T"] +:+ sub +:+ rest.
Proof.
  apply (nested_grammar_substring_appended
           20 embedded_reber_grammar 2 ["B"; "T"] [0; 0; 0; 1; 1; 0; 0; 0]
           [(Sub default_reber_grammar, Some 4)] 0 [0; 0; 1; 1; 0; 0; 0]
           default_reber_grammar (Some 4) "BTBTXSETE" []).
  - reflexivity.
  - reflexivity.
  - reflexivity.
  - vm_compute. reflexivity.
Defined.

(** ** The alphabet of the stock grammars *)

Lemma elem_of_grammar_symbols c g :
  c ∈ grammar_symbols g
  ↔ ∃ transitions production state,
      transitions ∈ g
      ∧ (production, state) ∈ transitions
      ∧ c ∈ production_symbols production.
Proof.
  unfold grammar_symbols. simpl. rewrite list_elem_of_bind. split.
  - intros (transitions & Hc & Hg).
    apply list_elem_of_bind in Hc as ([production state] & Hc & Ht).
    by exists transitions, production, state.
  - intros (transitions & production & state & Hg & Ht & Hc).
    exists transitions. split; [|done].
    apply list_elem_of_bind. by exists (production, state).
Qed.

Lemma over_alphabet_sym chars g st transitions c state :
  over_alphabet chars g →
  g !! st = Some transitions →
  (Sym c, state) ∈ transitions →
  Forall (λ a, a ∈ explode chars) (explode c).
Proof.
  intros Hover Hg Ht. unfold over_alphabet in Hover.
  rewrite Forall_forall in Hover. apply Hover.
  apply elem_of_grammar_symbols. exists transitions, (Sym c), state.
  split_and!; [by eapply list_elem_of_lookup_2|done|].
  simpl. by apply list_elem_of_singleton.
Qed.

Lemma over_alphabet_sub chars g st transitions g' state :
  over_alphabet chars g →
  g !! st = Some transitions →
  (Sub g', state) ∈ transitions →
  over_alphabet chars g'.
Proof.
  unfold over_alphabet. rewrite !Forall_forall. intros Hover Hg Ht c Hc.
  apply Hover. apply elem_of_grammar_symbols.
  exists transitions, (Sub g'), state.
  split_and!; [by eapply list_elem_of_lookup_2|done..].
Qed.

Section Alphabet.
Context {R : Type} `{RandomSource R}.

Lemma while_loop_alphabet chars fuel g state out (r : R) s r' :
  over_alphabet chars g →
  while_loop fuel g state out r = Ok (s, r') →
  ∃ w, s = join out +:+ w ∧ Forall (λ a, a ∈ explode chars) (explode w).
Proof.
  revert g state out r s r'.
  induction fuel as [|fuel IH]; intros g state out r s r' Hover; [done|].
  destruct state as [st|].
  - intros (fuel' & trs & idx & r1 & p & nxt & [= <-] & Hg & Hidx & Ht & Hrest)
      %while_loop_step.
    apply list_elem_of_lookup_2 in Ht. destruct p as [c|g'].
    + apply (IH _ _ _ _ _ _ Hover) in Hrest as (w & -> & Hw).
      exists (c +:+ w). split; [by rewrite join_snoc, str_app_assoc|].
      rewrite explode_app. apply Forall_app. split; [|done].
      by eapply over_alphabet_sym.
    + destruct Hrest as (sub & r2 & Hsub & Hrest).
      apply IH in Hsub as (sub' & -> & Hsub);
        [|by eapply over_alphabet_sub].
      apply (IH _ _ _ _ _ _ Hover) in Hrest as (w & -> & Hw).
      rewrite join_nil, app_empty_l. exists (sub' +:+ w).
      split; [by rewrite join_snoc, str_app_assoc|].
      rewrite explode_app. by apply Forall_app.
  - intros (_ & -> & ->)%while_loop_stop. exists "".
    split; [by rewrite app_empty_r|]. constructor.
Qed.

Lemma generate_string_alphabet chars fuel g (r : R) s r' :
  over_alphabet chars g →
  generate_string fuel g r = Ok (s, r') →
  Forall (λ a, a ∈ explode chars) (explode s).
Proof.
  intros Hover (w & -> & Hw)%(while_loop_alphabet chars); [|done].
  by rewrite join_nil, app_empty_l.
Qed.

Lemma generate_corrupted_string_alphabet chars fuel g (r : R) s r' :
  over_alphabet chars g →
  generate_corrupted_string fuel g chars r = Ok (s, r') →
  Forall (λ a, a ∈ explode chars) (explode s).
Proof.
  intros Hover Hbad. unfold generate_corrupted_string in Hbad.
  apply bind_Ok in Hbad as (good & r1 & Hgood & Hrest).
  apply bind_Ok in Hrest as (i & r2 & Hi & Hrest).
  apply bind_Ok in Hrest as (good_char & r3 & Hc & Hrest).
  apply bind_Ok in Hrest as (bad_char & r4 & Hb & [= <- <-]).
  apply str_getitem_Ok in Hc as (a & Ha & -> & ->).
  apply choice_Ok in Hb as (k & _ & Hk).
  apply list_elem_of_lookup_2, elem_of_sorted in Hk as (b & -> & Hb & Hne).
  apply (generate_string_alphabet chars) in Hgood; [|done].
  rewrite explode_get in Ha. apply lookup_lt_Some in Ha.
  rewrite explode_replace by (by rewrite <- explode_length).
  rewrite insert_take_drop by done.
  apply Forall_app. split; [by apply Forall_take|].
  constructor; [done|]. by apply Forall_drop.
Qed.
End Alphabet.

Lemma default_over_alphabet : over_alphabet POSSIBLE_CHARS default_reber_grammar.
Proof. apply (bool_decide_unpack _). vm_compute. reflexivity. Qed.

Lemma embedded_over_alphabet : over_alphabet POSSIBLE_CHARS embedded_reber_grammar.
Proof. apply (bool_decide_unpack _). vm_compute. reflexivity. Qed.

(** C9. On the two stock grammars with the alphabet "BEPSTVX", every symbol
    of a string that [generate_string] or [generate_corrupted_string]
    returns belongs to the alphabet, so [string_to_ids] does not raise on
    it and returns its encoding. *)
Theorem stock_output_encodable {R : Type} `{RandomSource R}
    fuel g (r : R) s r' :
  g = default_reber_grammar ∨ g = embedded_reber_grammar →
  generate_string fuel g r = Ok (s, r')
  ∨ generate_corrupted_string fuel g POSSIBLE_CHARS r = Ok (s, r') →
  (∀ a, a ∈ explode s → a ∈ explode POSSIBLE_CHARS)
  ∧ (∀ e, string_to_ids s POSSIBLE_CHARS ≠ Raise e)
  ∧ ∃ ids, string_to_ids s POSSIBLE_CHARS = Ok ids.
Proof.
  intros Hg Hs.
  assert (over_alphabet POSSIBLE_CHARS g) as Hover.
  { destruct Hg as [-> | ->];
      [apply default_over_alphabet|apply embedded_over_alphabet]. }
  assert (∀ a, a ∈ explode s → a ∈ explode POSSIBLE_CHARS) as Hin.
  { apply Forall_forall. destruct Hs as [Hs|Hs].
    - by eapply generate_string_alphabet.
    - by eapply generate_corrupted_string_alphabet. }
  destruct (string_to_ids_known s POSSIBLE_CHARS Hin) as [ids Hids].
  split_and!; [done| |by exists ids]. intros e. by rewrite Hids.
Qed.

Lemma stock_output_encodable_witness :
  (∀ a, a ∈ explode "PTBTXSETE" → a ∈ explode POSSIBLE_CHARS)
  ∧ (∀ e, string_to_ids "PTBTXSETE" POSSIBLE_CHARS ≠ Raise e)
  ∧ ∃ ids, string_to_ids "PTBTXSETE" POSSIBLE_CHARS = Ok ids.
Proof.
  apply (stock_output_encodable 20 embedded_reber_grammar
           [0; 0; 0; 0; 0; 1; 1; 0; 0; 0; 0; 1] "PTBTXSETE" []).
  - right. reflexivity.
  - right. vm_compute. reflexivity.
Defined.

(** ** First and last symbol *)

Section FirstLast.
Context {R : Type} `{RandomSource R}.

Lemma generate_string_starts_with c fuel g (r : R) s r' :
  starts_with c g →
  generate_string fuel g r = Ok (s, r') → ∃ w, s = c +:+ w.
Proof.
  intros (transitions & Hg & Hall)
    (fuel' & trs & idx & r1 & p & nxt & -> & Hg' & Hidx & Ht & Hrest)
    %while_loop_step.
  rewrite Hg in Hg'. injection Hg' as <-.
  apply list_elem_of_lookup_2 in Ht.
  rewrite Forall_forall in Hall. specialize (Hall _ Ht). simpl in Hall.
  subst p. apply while_loop_output in Hrest as (w & _ & ->).
  exists w. by rewrite join_snoc, join_nil, app_empty_l.
Qed.

Lemma while_loop_ends_with c fuel g st out (r : R) s r' :
  ends_with c g →
  while_loop fuel g (Some st) out r = Ok (s, r') →
  ∃ w, s = join out +:+ w +:+ c.
Proof.
  intros Hends. revert st out r s.
  induction fuel as [|fuel IH]; intros st out r s; [done|].
  intros (fuel' & trs & idx & r1 & p & nxt & [= <-] & Hg & Hidx & Ht & Hrest)
    %while_loop_step.
  assert (nxt = None → p = Sym c) as Hlast.
  { unfold ends_with in Hends. rewrite Forall_forall in Hends.
    apply list_elem_of_lookup_2 in Hg, Ht.
    specialize (Hends _ Hg). rewrite Forall_forall in Hends.
    apply (Hends _ Ht). }
  destruct nxt as [st'|].
  - destruct p as [c'|g'].
    + apply IH in Hrest as (w & ->). exists (c' +:+ w).
      by rewrite join_snoc, !str_app_assoc.
    + destruct Hrest as (sub & r2 & _ & Hrest).
      apply IH in Hrest as (w & ->). exists (sub +:+ w).
      by rewrite join_snoc, !str_app_assoc.
  - rewrite (Hlast eq_refl) in Hrest.
    apply while_loop_stop in Hrest as (_ & -> & _).
    exists "". by rewrite join_snoc.
Qed.

Lemma generate_string_ends_with c fuel g (r : R) s r' :
  ends_with c g →
  generate_string fuel g r = Ok (s, r') → ∃ w, s = w +:+ c.
Proof.
  intros Hends (w & ->)%(while_loop_ends_with c); [|done].
  exists w. by rewrite join_nil, app_empty_l.
Qed.
End FirstLast.

Lemma stock_starts_with_B g :
  g = default_reber_grammar ∨ g = embedded_reber_grammar → starts_with "B" g.
Proof.
  intros [-> | ->]; (eexists; split; [reflexivity|]); by repeat constructor.
Qed.

Lemma stock_ends_with_E g :
  g = default_reber_grammar ∨ g = embedded_reber_grammar → ends_with "E" g.
Proof.
  intros [-> | ->]; unfold ends_with; repeat constructor; simpl; congruence.
Qed.

(** C10. Every string that [generate_string] returns on the default or on
    the embedded Reber grammar is non-empty, begins with 'B' and ends with
    'E'; the position draw of the corrupter, [randint(len(s))], is then
    defined and yields a position of the string. *)
Theorem stock_output_B_to_E {R : Type} `{RandomSource R}
    fuel g (r : R) s r' :
  g = default_reber_grammar ∨ g = embedded_reber_grammar →
  generate_string fuel g r = Ok (s, r') →
  1 ≤ len s
  ∧ String.get 0 s = Some "B"%char
  ∧ String.get (len s - 1) s = Some "E"%char
  ∧ ∃ index r'', randint (len s) r' = Ok (index, r'') ∧ index < len s.
Proof.
  intros Hg Hs.
  destruct (generate_string_starts_with "B" _ _ _ _ _ (stock_starts_with_B g Hg) Hs)
    as [w Hw].
  destruct (generate_string_ends_with "E" _ _ _ _ _ (stock_ends_with_E g Hg) Hs)
    as [w' Hw'].
  assert (1 ≤ len s) as Hlen by (rewrite Hw, len_app; simpl; lia).
  split_and!; [done|by rewrite Hw| |].
  - rewrite Hw', explode_get, explode_app, len_app. simpl.
    rewrite lookup_app_r by (rewrite explode_length; lia).
    rewrite explode_length. by replace (len w' + 1 - 1 - len w') with 0 by lia.
  - destruct (draw (len s) r') as [index r''] eqn:Hdraw.
    assert (randint (len s) r' = Ok (index, r'')) as Hindex.
    { apply randint_Ok. split; [lia|done]. }
    exists index, r''. split; [done|]. by eapply randint_lt.
Qed.

Lemma stock_output_B_to_E_witness :
  1 ≤ len "BTBTXSETE"
  ∧ String.get 0 "BTBTXSETE" = Some "B"%char
  ∧ String.get (len "BTBTXSETE" - 1) "BTBTXSETE" = Some "E"%char
  ∧ ∃ index r'',
      randint (len "BTBTXSETE") [17; 1] = Ok (index, r'')
      ∧ index < len "BTBTXSETE".
Proof.
  apply (stock_output_B_to_E 20 embedded_reber_grammar
           [0; 0; 0; 0; 0; 1; 1; 0; 0; 0; 17; 1] "BTBTXSETE" [17; 1]).
  - right. reflexivity.
  - vm_compute. reflexivity.
Defined.

(** ** The step budget *)




Section Budget.
Context {R : Type} `{RandomSource R}.




End Budget.

(** ** The stock grammars never raise *)

Lemma production_ok_Sub g :
  production_ok (Sub g)
  = bool_decide (0 < length g)
    && forallb (λ transitions : list transition,
         bool_decide (0 < length transitions)
         && forallb (λ entry : transition,
              let '(production, state) := entry in
              production_ok production
              && match state with
                 | Some st => bool_decide (st < length g)
                 | None => true
                 end) transitions) g.
Proof. done. Qed.

Lemma well_formed_state g st transitions :
  well_formed g → g !! st = Some transitions → 0 < length transitions.
Proof.
  unfold well_formed. rewrite production_ok_Sub.
  intros [_ Hall]%andb_true_iff Hg. rewrite forallb_forall in Hall.
  apply list_elem_of_lookup_2, list_elem_of_In, Hall in Hg.
  apply andb_true_iff in Hg as [Hlen _]. by apply bool_decide_eq_true in Hlen.
Qed.

Lemma well_formed_transition g st transitions production state :
  well_formed g →
  g !! st = Some transitions →
  (production, state) ∈ transitions →
  production_ok production = true
  ∧ ∀ st', state = Some st' → st' < length g.
Proof.
  unfold well_formed. rewrite production_ok_Sub.
  intros [_ Hall]%andb_true_iff Hg Ht. rewrite forallb_forall in Hall.
  apply list_elem_of_lookup_2, list_elem_of_In, Hall in Hg.
  apply andb_true_iff in Hg as [_ Hg]. rewrite forallb_forall in Hg.
  apply list_elem_of_In, Hg in Ht. apply andb_true_iff in Ht as [Hp Hst].
  split; [done|]. intros st' ->. by apply bool_decide_eq_true in Hst.
Qed.

Lemma well_formed_start g : well_formed g → 0 < length g.
Proof.
  unfold well_formed. rewrite production_ok_Sub.
  intros [Hlen _]%andb_true_iff. by apply bool_decide_eq_true in Hlen.
Qed.

Section NeverRaises.
Context {R : Type} `{RandomSource R}.

Lemma while_loop_never_raises fuel g state out (r : R) e :
  well_formed g →
  (∀ st, state = Some st → st < length g) →
  while_loop fuel g state out r ≠ Raise e.
Proof.
  revert g state out r e.
  induction fuel as [|fuel IH]; intros g state out r e Hwf Hstate; [done|].
  destruct state as [st|]; [|done].
  destruct (lookup_lt_is_Some_2 g st (Hstate st eq_refl)) as [transitions Hg].
  pose proof (well_formed_state _ _ _ Hwf Hg) as Hlen.
  simpl. unfold bind at 1. unfold getitem at 1. rewrite Hg. simpl.
  pose proof (draw_lt (length transitions) r Hlen) as Hindex.
  unfold bind at 1. unfold randint.
  destruct (length transitions) as [|n] eqn:Hn; [lia|].
  destruct (draw (S n) r) as [index r1]. simpl in Hindex. rewrite <- Hn in Hindex.
  destruct (lookup_lt_is_Some_2 transitions index Hindex)
    as [[production state] Ht].
  unfold bind at 1. unfold getitem at 1. rewrite Ht. simpl.
  apply list_elem_of_lookup_2 in Ht.
  destruct (well_formed_transition _ _ _ _ _ Hwf Hg Ht) as [Hp Hnext].
  destruct production as [c|g'].
  - by apply IH.
  - unfold bind at 1.
    destruct (while_loop fuel g' (Some 0) [] r1) as [[sub r2]|e'|] eqn:Hsub.
    + by apply IH.
    + exfalso. revert Hsub. apply IH; [done|].
      intros st' [= <-]. by apply well_formed_start.
    + done.
Qed.

Lemma generate_string_never_raises fuel g (r : R) e :
  well_formed g → generate_string fuel g r ≠ Raise e.
Proof.
  intros Hwf. apply while_loop_never_raises; [done|].
  intros st [= <-]. by apply well_formed_start.
Qed.
End NeverRaises.

Lemma default_well_formed : well_formed default_reber_grammar.
Proof. vm_compute. reflexivity. Qed.

Lemma embedded_well_formed : well_formed embedded_reber_grammar.
Proof. vm_compute. reflexivity. Qed.

Section CorrupterNeverRaises.
Context {R : Type} `{RandomSource R}.

Lemma choice_never_raises {A} (a : list A) (r : R) e :
  a ≠ [] → choice a r ≠ Raise e.
Proof.
  intros Ha. unfold choice. destruct a as [|x a]; [done|].
  unfold bind.
  pose proof (draw_lt (length (x :: a)) r ltac:(simpl; lia)) as Hi.
  destruct (draw (length (x :: a)) r) as [i r1]. simpl in Hi.
  unfold getitem. by destruct (lookup_lt_is_Some_2 (x :: a) i Hi) as [y ->].
Qed.

Lemma candidates_nonempty good_char :
  sorted (py_set POSSIBLE_CHARS ∖ py_set (chr good_char)) ≠ [].
Proof.
  assert (∃ c, c ∈ sorted (py_set POSSIBLE_CHARS ∖ py_set (chr good_char)))
    as [c Hc]; [|by destruct (sorted _); [apply elem_of_nil in Hc|]].
  destruct (decide (good_char = "B"%char)) as [->|Hne].
  - exists (chr "E"). apply elem_of_sorted. exists "E"%char.
    split_and!; [done| |done]. by apply (bool_decide_unpack _).
  - exists (chr "B"). apply elem_of_sorted. exists "B"%char.
    split_and!; [done| |done]. by apply (bool_decide_unpack _).
Qed.

Lemma generate_corrupted_string_never_raises fuel g (r : R) e :
  g = default_reber_grammar ∨ g = embedded_reber_grammar →
  generate_corrupted_string fuel g POSSIBLE_CHARS r ≠ Raise e.
Proof.
  intros Hg. unfold generate_corrupted_string. unfold bind at 1.
  destruct (generate_string fuel g r) as [[good r1]|e'|] eqn:Hgood; [| |done].
  - destruct (generate_string_starts_with "B" _ _ _ _ _
                (stock_starts_with_B g Hg) Hgood) as [w Hw].
    assert (0 < len good) as Hlen by (rewrite Hw, len_app; simpl; lia).
    pose proof (draw_lt (len good) r1 Hlen) as Hindex.
    unfold bind at 1. unfold randint.
    destruct (len good) as [|n] eqn:Hn; [lia|].
    destruct (draw (S n) r1) as [index r2]. simpl in Hindex.
    unfold bind at 1. unfold str_getitem. rewrite explode_get.
    rewrite <- Hn, <- explode_length in Hindex.
    destruct (lookup_lt_is_Some_2 _ _ Hindex) as [a ->]. simpl.
    unfold bind at 1.
    pose proof (choice_never_raises
                  (sorted (py_set POSSIBLE_CHARS ∖ py_set (chr a))) r2)
      as Hchoice.
    destruct (choice _ r2) as [[bad_char r3]|e'|]; [done| |done].
    by destruct (Hchoice e' (candidates_nonempty a)).
  - exfalso. revert Hgood. apply generate_string_never_raises.
    destruct Hg as [-> | ->];
      [apply default_well_formed|apply embedded_well_formed].
Qed.
End CorrupterNeverRaises.

Section DatasetNeverRaises.
Context {R : Type} `{RandomSource R}.

Lemma comprehension_never_raises {A} n (c : comp R A) :
  (∀ r e, c r ≠ Raise e) → ∀ r e, comprehension n c r ≠ Raise e.
Proof.
  intros Hc. induction n as [|n IH]; intros r e; simpl; [done|].
  unfold bind at 1. specialize (Hc r).
  destruct (c r) as [[x r1]|e'|]; [|by destruct (Hc e')|done].
  unfold bind at 1. specialize (IH r1).
  destruct (comprehension n c r1) as [[xs r2]|e'|]; [done| |done].
  by destruct (IH e').
Qed.

(** On the embedded grammar [generate_dataset] either returns a dataset or
    is still running: no exception reaches the caller. *)
Lemma generate_dataset_never_raises fuel size (r : R) e :
  generate_dataset fuel size r ≠ Raise e.
Proof.
  unfold generate_dataset. unfold bind at 1.
  pose proof (comprehension_never_raises (Z.to_nat (size / 2))
    (s <- generate_string fuel embedded_reber_grammar ;;
     lift (string_to_ids s POSSIBLE_CHARS))) as Hgood.
  destruct (comprehension (Z.to_nat (size / 2)) _ r)
    as [[good_strings r1]|e'|] eqn:Hg; [| |done].
  - unfold bind at 1.
    pose proof (comprehension_never_raises (Z.to_nat (size - size / 2))
      (s <- generate_corrupted_string fuel embedded_reber_grammar
              POSSIBLE_CHARS ;;
       lift (string_to_ids s POSSIBLE_CHARS))) as Hbad.
    destruct (comprehension (Z.to_nat (size - size / 2)) _ r1)
      as [[bad_strings r2]|e'|] eqn:Hb; [done| |done].
    exfalso. revert Hb. apply Hbad. clear. intros r e. unfold bind.
    destruct (generate_corrupted_string _ _ _ r) as [[s r1]|e'|] eqn:Hs;
      [| |done].
    + apply (generate_corrupted_string_alphabet POSSIBLE_CHARS) in Hs;
        [|apply embedded_over_alphabet].
      rewrite Forall_forall in Hs.
      destruct (string_to_ids_known s POSSIBLE_CHARS Hs) as [ids Hids].
      unfold lift. by rewrite Hids.
    + exfalso. revert Hs.
      apply generate_corrupted_string_never_raises. by right.
  - exfalso. revert Hg. apply Hgood. clear. intros r e. unfold bind.
    destruct (generate_string _ _ r) as [[s r1]|e'|] eqn:Hs; [| |done].
    + apply (generate_string_alphabet POSSIBLE_CHARS) in Hs;
        [|apply embedded_over_alphabet].
      rewrite Forall_forall in Hs.
      destruct (string_to_ids_known s POSSIBLE_CHARS Hs) as [ids Hids].
      unfold lift. by rewrite Hids.
    + exfalso. revert Hs.
      apply generate_string_never_raises, embedded_well_formed.
Qed.
End DatasetNeverRaises.

(** * Further properties of the code *)

(** ** The encoder *)

Lemma string_to_ids_lookup s chars ids i k :
  string_to_ids s chars = Ok ids →
  ids !! i = Some k →
  ∃ a, explode s !! i = Some a ∧ explode chars !! k = Some a.
Proof.
  intros [Hlen Hids]%string_to_ids_Ok Hk.
  assert (i < length (explode s)) as Hi.
  { rewrite explode_length, <- Hlen. by eapply lookup_lt_Some. }
  destruct (lookup_lt_is_Some_2 _ _ Hi) as [a Ha].
  destruct (Hids i a Ha) as (k' & Hk' & Hchars & _).
  rewrite Hk in Hk'. injection Hk' as <-. by exists a.
Qed.

(** X1. Every id [string_to_ids] returns is a position of the alphabet:
    it is below [len(chars)], the [input_dim] the notebook gives its
    embedding layer. *)
Theorem string_to_ids_in_range s chars ids :
  string_to_ids s chars = Ok ids → Forall (λ k, k < len chars) ids.
Proof.
  intros Hids. apply Forall_lookup. intros i k Hk.
  destruct (string_to_ids_lookup _ _ _ _ _ Hids Hk) as (a & _ & Ha).
  rewrite <- explode_length. by eapply lookup_lt_Some.
Qed.

Lemma string_to_ids_in_range_witness :
  Forall (λ k, k < len POSSIBLE_CHARS) [0; 4; 6; 3; 1].
Proof.
  apply (string_to_ids_in_range "BTXSE" POSSIBLE_CHARS). vm_compute. reflexivity.
Defined.

(** X2. Reading the alphabet at the ids gives the input back, so two
    strings with the same encoding are the same string. This holds for any
    alphabet, also one that repeats a symbol. *)
Theorem string_to_ids_round_trip s chars ids :
  string_to_ids s chars = Ok ids →
  (λ k, explode chars !! k) <$> ids = Some <$> explode s
  ∧ ∀ s', string_to_ids s' chars = Ok ids → s' = s.
Proof.
  assert (∀ s ids, string_to_ids s chars = Ok ids →
            (λ k, explode chars !! k) <$> ids = Some <$> explode s) as Hback.
  { clear. intros s ids [Hlen Hids]%string_to_ids_Ok.
    apply list_eq. intros i. rewrite !list_lookup_fmap.
    destruct (explode s !! i) as [a|] eqn:Ha; simpl.
    - destruct (Hids i a Ha) as (k & -> & Hk & _). simpl. by rewrite Hk.
    - apply lookup_ge_None in Ha. rewrite explode_length, <- Hlen in Ha.
      apply lookup_ge_None in Ha. by rewrite Ha. }
  intros Hs. split; [by apply Hback|].
  intros s' Hs'. apply explode_inj.
  apply (inj (fmap Some)). by rewrite <- (Hback s ids), <- (Hback s' ids).
Qed.

Lemma string_to_ids_round_trip_witness :
  (λ k, explode POSSIBLE_CHARS !! k) <$> [0; 4; 6; 3; 1]
  = Some <$> explode "BTXSE"
  ∧ ∀ s', string_to_ids s' POSSIBLE_CHARS = Ok [0; 4; 6; 3; 1] → s' = "BTXSE".
Proof.
  apply (string_to_ids_round_trip "BTXSE" POSSIBLE_CHARS). vm_compute. reflexivity.
Defined.

(** X3. Encoding a concatenation is encoding the parts, left to right: the
    ids are concatenated, and the first part that fails decides the
    error. *)
Theorem string_to_ids_app s1 s2 chars :
  string_to_ids (s1 +:+ s2) chars
  = match string_to_ids s1 chars with
    | Ok ids1 =>
        match string_to_ids s2 chars with
        | Ok ids2 => Ok (ids1 ++ ids2)
        | Raise e => Raise e
        | Diverge => Diverge
        end
    | Raise e => Raise e
    | Diverge => Diverge
    end.
Proof.
  induction s1 as [|a s1 IH].
  { rewrite app_empty_l, string_to_ids_nil.
    by destruct (string_to_ids s2 chars). }
  change (String a s1 +:+ s2) with (String a (s1 +:+ s2)).
  rewrite !string_to_ids_cons, IH.
  destruct (str_index chars (chr a)); [|done..].
  destruct (string_to_ids s1 chars); [|done..].
  by destruct (string_to_ids s2 chars).
Qed.

(** ** The generator on any grammar *)

(** X4. On a well-formed grammar (a state 0, no state without transitions,
    no next state outside the grammar, nested grammars alike)
    [generate_string] raises no exception, with any random source: a run
    returns a string or is still going. *)
Theorem generate_string_well_formed {R : Type} `{RandomSource R}
    fuel g (r : R) :
  well_formed g →
  generate_string fuel g r = Diverge
  ∨ ∃ s r', generate_string fuel g r = Ok (s, r').
Proof.
  intros Hwf. pose proof (generate_string_never_raises fuel g r) as Hraise.
  destruct (generate_string fuel g r) as [[s r']|e|]; [by eauto| |by left].
  by destruct (Hraise e Hwf).
Qed.

Lemma generate_string_well_formed_witness :
  generate_string 20 embedded_reber_grammar [0; 1; 0; 0; 1; 1; 1; 0; 0; 0]
  = Diverge
  ∨ ∃ s r',
      generate_string 20 embedded_reber_grammar [0; 1; 0; 0; 1; 1; 1; 0; 0; 0]
      = Ok (s, r').
Proof.
  apply (generate_string_well_formed 20 embedded_reber_grammar).
  vm_compute. reflexivity.
Defined.

(** X5. Three malformed grammars are reported by an exception, whatever is
    drawn: the empty grammar raises [IndexError]; a state 0 without
    transitions raises [ValueError]; a state 0 all of whose transitions
    are literal productions with a next state at or beyond the number of
    states raises [IndexError]. *)
Theorem generate_string_malformed {R : Type} `{RandomSource R}
    fuel g (r : R) :
  (g = [] → generate_string (S fuel) g r = Raise IndexError)
  ∧ (g !! 0 = Some [] → generate_string (S fuel) g r = Raise ValueError)
  ∧ (∀ transitions,
       g !! 0 = Some transitions →
       transitions ≠ [] →
       Forall (λ entry : transition,
                 ∃ c st, entry = (Sym c, Some st) ∧ length g ≤ st)
              transitions →
       generate_string (S (S fuel)) g r = Raise IndexError).
Proof.
  split_and!.
  - by intros ->.
  - intros Hg. unfold generate_string. simpl.
    unfold bind at 1. unfold getitem at 1. by rewrite Hg.
  - intros transitions Hg Hne Hall. unfold generate_string.
    cbn [while_loop]. unfold bind at 1. unfold getitem at 1. rewrite Hg. simpl.
    assert (0 < length transitions) as Hlen by (by destruct transitions; simpl; [|lia]).
    pose proof (draw_lt (length transitions) r Hlen) as Hindex.
    unfold bind at 1. unfold randint.
    destruct (length transitions) as [|n] eqn:Hn; [lia|].
    destruct (draw (S n) r) as [index r1]. simpl in Hindex.
    rewrite <- Hn in Hindex.
    destruct (lookup_lt_is_Some_2 _ _ Hindex) as [entry Hentry].
    unfold bind at 1. unfold getitem at 1. rewrite Hentry. simpl.
    rewrite Forall_lookup in Hall.
    destruct (Hall _ _ Hentry) as (c & st & -> & Hst).
    unfold bind at 1. unfold getitem at 1.
    by rewrite (proj2 (lookup_ge_None g st) Hst).
Qed.

Lemma generate_string_malformed_witness :
  [[(Sym "B", Some 3)]] !! 0 = Some [(Sym "B", Some 3)]
  ∧ generate_string 2 [[(Sym "B", Some 3)]] [5] = Raise IndexError.
Proof.
  split; [reflexivity|].
  apply (proj2 (proj2 (generate_string_malformed (R:=tape)
           0 [[(Sym "B", Some 3)]] [5])) [(Sym "B", Some 3)]).
  - reflexivity.
  - discriminate.
  - repeat constructor. exists "B", 3. split; [reflexivity|simpl; lia].
Defined.

(** X7. Whatever the grammar, and however deep its nesting, a string that
    [generate_string] returns is a string of the grammar: the grammar
    derives it from state 0, and running it forward through the grammar
    reaches the terminal next state with nothing left over. *)
Theorem generate_string_in_language {R : Type} `{RandomSource R}
    fuel g (r : R) s r' :
  generate_string fuel g r = Ok (s, r') →
  derives g (Some 0) s
  ∧ ∀ budget, fuel ≤ budget → matches budget g s = true.
Proof.
  intros Hgen. split; [by eapply generate_string_derives|].
  by eapply generate_string_matches.
Qed.

Lemma generate_string_in_language_witness :
  derives embedded_reber_grammar (Some 0) "BPBPVVEPE"
  ∧ ∀ budget, 20 ≤ budget → matches budget embedded_reber_grammar "BPBPVVEPE" = true.
Proof.
  apply (generate_string_in_language 20 embedded_reber_grammar
           [0; 1; 0; 0; 1; 1; 1; 0; 0; 0] "BPBPVVEPE" []).
  vm_compute. reflexivity.
Defined.

(** ** The corrupter and the dataset at their edges *)

Lemma sorted_nil S : (∀ a, a ∉ S) → sorted S = [].
Proof.
  intros HS. unfold sorted.
  assert (elements S = []) as ->; [|done].
  apply elem_of_nil_inv. intros a. rewrite elem_of_elements. apply HS.
Qed.

(** X6. When the alphabet offers no symbol other than those of the
    baseline string (an empty alphabet, an empty baseline, or one symbol
    for both), [generate_corrupted_string] raises [ValueError]: from
    [randint(0)] for the empty baseline, from [choice] of an empty list
    otherwise. *)
Theorem generate_corrupted_string_no_candidate {R : Type} `{RandomSource R}
    fuel g chars (r : R) good r1 :
  generate_string fuel g r = Ok (good, r1) →
  (∀ a b, a ∈ explode good → b ∈ explode chars → b = a) →
  generate_corrupted_string fuel g chars r = Raise ValueError.
Proof.
  intros Hgood Hsame. unfold generate_corrupted_string.
  unfold bind at 1. rewrite Hgood.
  unfold bind at 1. unfold randint.
  destruct (len good) as [|n] eqn:Hn; [done|].
  pose proof (draw_lt (S n) r1 ltac:(lia)) as Hindex.
  destruct (draw (S n) r1) as [index r2]. simpl in Hindex.
  rewrite <- Hn, <- explode_length in Hindex.
  destruct (lookup_lt_is_Some_2 _ _ Hindex) as [a Ha].
  unfold bind at 1. unfold str_getitem. rewrite explode_get, Ha. simpl.
  unfold bind at 1. rewrite sorted_nil; [done|].
  intros b [Hb Hne]%elem_of_difference.
  apply Hne. rewrite elem_of_py_set in *. rewrite explode_chr.
  apply list_elem_of_singleton. apply (Hsame a b); [|done].
  by eapply list_elem_of_lookup_2.
Qed.

Lemma generate_corrupted_string_no_candidate_witness :
  generate_corrupted_string 20 [[(Sym "B", Some 1)]; [(Sym "B", None)]] "B"
    [4; 2; 7; 1]
  = Raise ValueError.
Proof.
  apply (generate_corrupted_string_no_candidate
           20 [[(Sym "B", Some 1)]; [(Sym "B", None)]] "B" [4; 2; 7; 1]
           "BB" [7; 1]).
  - vm_compute. reflexivity.
  - intros a b Ha Hb. simpl in Ha, Hb.
    apply list_elem_of_singleton in Hb as ->.
    by repeat (apply elem_of_cons in Ha as [->|Ha]; [done|]);
       apply elem_of_nil in Ha.
Defined.

(** X8. No exception leaves [generate_dataset], for any size and any random
    source: the generator and the corrupter do not raise on the embedded
    grammar and every string they return is encodable. A call returns a
    dataset or is still generating. *)
Theorem generate_dataset_no_exception {R : Type} `{RandomSource R}
    fuel size (r : R) :
  generate_dataset fuel size r = Diverge
  ∨ ∃ X y r', generate_dataset fuel size r = Ok (X, y, r').
Proof.
  pose proof (generate_dataset_never_raises fuel size r) as Hraise.
  destruct (generate_dataset fuel size r) as [[[X y] r']|e|];
    [by eauto| |by left].
  by destruct (Hraise e).
Qed.

(** ** The languages of the stock grammars *)

Lemma derives_inv g state w :
  derives g state w →
  match state with
  | None => w = ""
  | Some st =>
      ∃ transitions production state' rest,
        g !! st = Some transitions
        ∧ (production, state') ∈ transitions
        ∧ derives g state' rest
        ∧ match production with
          | Sym c => w = c +:+ rest
          | Sub g' => ∃ sub, derives g' (Some 0) sub ∧ w = sub +:+ rest
          end
  end.
Proof.
  destruct 1 as [g|g st trs c nxt w Hg Ht Hw|g st trs g' nxt sub w Hg Ht Hsub Hw].
  - done.
  - by exists trs, (Sym c), nxt, w.
  - exists trs, (Sub g'), nxt, w. split_and!; [done..|]. by exists sub.
Qed.

Section FlatGrammar.
Variable g : grammar.
Hypothesis Hsingle : single_symbols g.
Hypothesis Hreversible : reversible g.

Lemma flat_derives_nil state : derives g state "" → state = None.
Proof.
  intros Hd%derives_inv. destruct state as [st|]; [|done].
  destruct Hd as (trs & p & nxt & rest & Hg & Ht & _ & Hw).
  destruct (Hsingle _ _ _ _ Hg Ht) as [a ->]. done.
Qed.

Lemma flat_derives_cons state x w :
  derives g state (String x w) →
  ∃ st transitions state',
    state = Some st
    ∧ g !! st = Some transitions
    ∧ (Sym (chr x), state') ∈ transitions
    ∧ derives g state' w.
Proof.
  intros Hd%derives_inv. destruct state as [st|]; [|done].
  destruct Hd as (trs & p & nxt & rest & Hg & Ht & Hrest & Hw).
  destruct (Hsingle _ _ _ _ Hg Ht) as [a ->].
  injection Hw as -> ->. by exists st, trs, nxt.
Qed.

(** What is still to be emitted tells the state. *)
Lemma flat_derives_state state state' w :
  derives g state w → derives g state' w → state = state'.
Proof.
  revert state state'. induction w as [|x w IH]; intros state state' H1 H2.
  { apply flat_derives_nil in H1, H2. congruence. }
  apply flat_derives_cons in H1 as (st1 & trs1 & nxt1 & -> & Hg1 & Ht1 & Hw1).
  apply flat_derives_cons in H2 as (st2 & trs2 & nxt2 & -> & Hg2 & Ht2 & Hw2).
  pose proof (IH _ _ Hw1 Hw2) as <-.
  destruct (Hreversible _ _ _ _ _ _ _ _ Hg1 Hg2 Ht1 Ht2) as (Hback & _ & _).
  f_equal. by apply Hback.
Qed.

(** Replacing one symbol of a string of the grammar by another symbol
    never gives a string of the grammar. *)
Lemma flat_one_change state w1 w2 i a b :
  derives g state w1 →
  derives g state w2 →
  explode w1 !! i = Some a →
  explode w2 = <[i:=b]> (explode w1) →
  b ≠ a →
  False.
Proof.
  revert state w2 i. induction w1 as [|x w1 IH]; intros state w2 i H1 H2 Ha Hw Hne.
  { done. }
  apply flat_derives_cons in H1 as (st & trs & nxt1 & -> & Hg & Ht1 & Hw1).
  destruct w2 as [|y w2]; [by destruct i|].
  apply flat_derives_cons in H2 as (st' & trs' & nxt2 & [= <-] & Hg' & Ht2 & Hw2).
  rewrite Hg in Hg'. injection Hg' as <-.
  destruct (Hreversible _ _ _ _ _ _ _ _ Hg Hg Ht1 Ht2) as (_ & Hsym & Hnext).
  destruct i as [|i]; simpl in Ha, Hw.
  - injection Ha as ->. injection Hw as -> Hw. apply explode_inj in Hw as ->.
    pose proof (flat_derives_state _ _ _ Hw1 Hw2) as Hsame.
    apply Hne. symmetry. by apply chr_inj, Hsym.
  - injection Hw as -> Hw.
    pose proof (Hnext eq_refl eq_refl) as <-.
    by apply (IH nxt1 w2 i).
Qed.
End FlatGrammar.

Tactic Notation "stock_state" ident(st) hyp(Hg) :=
  destruct st as [|[|[|[|[|[|[|st]]]]]]]; [injection Hg as <- ..|done].

Ltac stock_entries Ht :=
  repeat (apply elem_of_cons in Ht as [Ht|Ht]; [simplify_eq|]);
  try (by apply elem_of_nil in Ht).

Lemma default_single_symbols : single_symbols default_reber_grammar.
Proof.
  intros st trs p q Hg Ht. stock_state st Hg; stock_entries Ht;
    eexists; reflexivity.
Qed.

Lemma default_reversible : reversible default_reber_grammar.
Proof.
  intros st st' trs trs' c c' q q' Hg Hg' Ht Ht'.
  stock_state st Hg; stock_state st' Hg'; stock_entries Ht; stock_entries Ht';
    (split_and!; congruence).
Qed.

Lemma default_derives_distance state w :
  derives default_reber_grammar state w → default_distance state ≤ len w.
Proof.
  revert state. induction w as [|x w IH]; intros state Hd.
  { by apply (flat_derives_nil _ default_single_symbols) in Hd as ->. }
  apply (flat_derives_cons _ default_single_symbols) in Hd
    as (st & trs & nxt & -> & Hg & Ht & Hw).
  apply IH in Hw. stock_state st Hg; stock_entries Ht; simpl in *; lia.
Qed.

(** The strings of the embedded grammar. *)
Lemma embedded_derives s :
  derives embedded_reber_grammar (Some 0) s →
  ∃ c sub,
    (c = "T"%char ∨ c = "P"%char)
    ∧ derives default_reber_grammar (Some 0) sub
    ∧ s = "B" +:+ chr c +:+ sub +:+ chr c +:+ "E".
Proof.
  intros H0.
  apply derives_inv in H0 as (trs & p & nxt & s1 & Hg & Ht & H1 & Hs).
  injection Hg as <-. stock_entries Ht.
  apply derives_inv in H1 as (trs & p & nxt & s2 & Hg & Ht & H2 & Hs).
  injection Hg as <-. stock_entries Ht.
  - apply derives_inv in H2 as (trs & p & nxt & s3 & Hg & Ht & H3 & Hs).
    injection Hg as <-. stock_entries Ht. destruct Hs as (sub & Hsub & Hs).
    apply derives_inv in H3 as (trs & p & nxt & s4 & Hg & Ht & H4 & Hs').
    injection Hg as <-. stock_entries Ht.
    apply derives_inv in H4 as (trs & p & nxt & s5 & Hg & Ht & H5 & Hs').
    injection Hg as <-. stock_entries Ht.
    apply derives_inv in H5 as ->.
    exists "T"%char, sub. rewrite app_empty_r. split_and!; [by left|done..].
  - apply derives_inv in H2 as (trs & p & nxt & s3 & Hg & Ht & H3 & Hs).
    injection Hg as <-. stock_entries Ht. destruct Hs as (sub & Hsub & Hs).
    apply derives_inv in H3 as (trs & p & nxt & s4 & Hg & Ht & H4 & Hs').
    injection Hg as <-. stock_entries Ht.
    apply derives_inv in H4 as (trs & p & nxt & s5 & Hg & Ht & H5 & Hs').
    injection Hg as <-. stock_entries Ht.
    apply derives_inv in H5 as ->.
    exists "P"%char, sub. rewrite app_empty_r. split_and!; [by right|done..].
Qed.

Lemma embedded_explode c sub :
  explode ("B" +:+ chr c +:+ sub +:+ chr c +:+ "E")
  = "B"%char :: c :: explode sub ++ [c; "E"%char].
Proof. by rewrite !explode_app, !explode_chr. Qed.

Lemma embedded_one_change good bad i a b :
  derives embedded_reber_grammar (Some 0) good →
  derives embedded_reber_grammar (Some 0) bad →
  explode good !! i = Some a →
  explode bad = <[i:=b]> (explode good) →
  b ≠ a →
  False.
Proof.
  intros (c & sub & _ & Hsub & ->)%embedded_derives
         (c' & sub' & _ & Hsub' & ->)%embedded_derives.
  rewrite !embedded_explode. intros Ha Hbad Hne.
  assert (length (explode sub') = length (explode sub)) as Hlen.
  { apply (f_equal length) in Hbad. rewrite length_insert in Hbad.
    simpl in Hbad. rewrite !length_app in Hbad. simpl in Hbad. lia. }
  destruct i as [|[|j]]; simpl in Ha, Hbad.
  - congruence.
  - injection Hbad as -> Hbad. injection Ha as ->.
    apply app_inj_1 in Hbad as [_ [= ->]]; done.
  - injection Hbad as -> Hbad.
    destruct (decide (j < length (explode sub))) as [Hj|Hj].
    + rewrite insert_app_l in Hbad by done.
      apply app_inj_1 in Hbad as [Hbad _]; [|by rewrite length_insert].
      rewrite lookup_app_l in Ha by done.
      by apply (flat_one_change _ default_single_symbols default_reversible
                  _ _ _ _ _ _ Hsub Hsub' Ha Hbad).
    + rewrite insert_app_r_alt in Hbad by lia.
      apply app_inj_1 in Hbad as [_ Hbad]; [|done].
      rewrite lookup_app_r in Ha by lia.
      destruct (j - length (explode sub)) as [|[|k]]; simpl in Ha, Hbad.
      all: try congruence. by rewrite lookup_nil in Ha.
Qed.

Section CorrupterFacts.
Context {R : Type} `{RandomSource R}.

(** A corrupted string, read off a successful run of the corrupter. *)
Lemma generate_corrupted_string_Ok fuel g chars (r : R) bad r' :
  generate_corrupted_string fuel g chars r = Ok (bad, r') →
  ∃ good r1 i a b,
    generate_string fuel g r = Ok (good, r1)
    ∧ explode good !! i = Some a
    ∧ explode bad = <[i:=b]> (explode good)
    ∧ b ∈ explode chars
    ∧ b ≠ a.
Proof.
  unfold generate_corrupted_string.
  intros (good & r1 & Hgood & Hrest)%bind_Ok.
  apply bind_Ok in Hrest as (i & r2 & Hi & Hrest).
  apply bind_Ok in Hrest as (good_char & r3 & Hc & Hrest).
  apply bind_Ok in Hrest as (bad_char & r4 & Hb & [= <- <-]).
  apply str_getitem_Ok in Hc as (a & Ha & -> & ->).
  apply choice_Ok in Hb as (k & _ & Hk).
  apply list_elem_of_lookup_2, elem_of_sorted in Hk as (b & -> & Hb & Hne).
  rewrite explode_get in Ha.
  exists good, r1, i, a, b. split_and!; try done.
  apply explode_replace. rewrite <- explode_length. by eapply lookup_lt_Some.
Qed.
End CorrupterFacts.

(** X9. A string that [generate_string] returns has at least 5 symbols on
    the default Reber grammar and at least 9 on the embedded one; both
    bounds are met. *)
Theorem stock_output_min_length {R : Type} `{RandomSource R}
    fuel (r : R) s r' :
  (generate_string fuel default_reber_grammar r = Ok (s, r') → 5 ≤ len s)
  ∧ (generate_string fuel embedded_reber_grammar r = Ok (s, r') → 9 ≤ len s)
  ∧ generate_string 20 default_reber_grammar [0; 0; 1; 1; 0] = Ok ("BTXSE", [])
  ∧ generate_string 20 embedded_reber_grammar [0; 1; 0; 0; 1; 1; 1; 0; 0; 0]
    = Ok ("BPBPVVEPE", []).
Proof.
  split_and!.
  - intros Hs%generate_string_derives.
    by apply default_derives_distance in Hs.
  - intros (c & sub & _ & Hsub%default_derives_distance & ->)
      %generate_string_derives%embedded_derives.
    rewrite !len_app. simpl in *. lia.
  - vm_compute. reflexivity.
  - vm_compute. reflexivity.
Qed.

Lemma stock_output_min_length_witness :
  5 ≤ len "BTSXSE" ∧ 9 ≤ len "BTBTXSETE".
Proof.
  split.
  - apply (proj1 (stock_output_min_length 20 [7; 0; 0; 1; 1; 0] "BTSXSE" [])).
    vm_compute. reflexivity.
  - apply (proj1 (proj2 (stock_output_min_length
             20 [0; 0; 0; 0; 0; 1; 1; 0; 0; 0] "BTBTXSETE" []))).
    vm_compute. reflexivity.
Defined.

(** X10. A string that [generate_string] returns on the embedded Reber
    grammar is "B", then "T" or "P", then a string of the default grammar,
    then the same "T" or "P" again, then "E": its second symbol and its
    last but one are equal. *)
Theorem embedded_output_shape {R : Type} `{RandomSource R}
    fuel (r : R) s r' :
  generate_string fuel embedded_reber_grammar r = Ok (s, r') →
  ∃ c sub,
    (c = "T"%char ∨ c = "P"%char)
    ∧ derives default_reber_grammar (Some 0) sub
    ∧ s = "B" +:+ chr c +:+ sub +:+ chr c +:+ "E"
    ∧ String.get 1 s = Some c
    ∧ String.get (len s - 2) s = Some c.
Proof.
  intros (c & sub & Hc & Hsub & ->)%generate_string_derives%embedded_derives.
  exists c, sub. split_and!; try done.
  rewrite explode_get, <- explode_length, embedded_explode.
  replace (length ("B"%char :: c :: explode sub ++ [c; "E"%char]) - 2)
    with (S (S (length (explode sub))))
    by (simpl; rewrite length_app; simpl; lia).
  simpl. rewrite lookup_app_r by lia. by rewrite Nat.sub_diag.
Qed.

Lemma embedded_output_shape_witness :
  ∃ c sub,
    (c = "T"%char ∨ c = "P"%char)
    ∧ derives default_reber_grammar (Some 0) sub
    ∧ "BPBPVVEPE" = "B" +:+ chr c +:+ sub +:+ chr c +:+ "E"
    ∧ String.get 1 "BPBPVVEPE" = Some c
    ∧ String.get (len "BPBPVVEPE" - 2) "BPBPVVEPE" = Some c.
Proof.
  apply (embedded_output_shape 20 [0; 1; 0; 0; 1; 1; 1; 0; 0; 0] "BPBPVVEPE" []).
  vm_compute. reflexivity.
Defined.

(** X11. On the two stock grammars a string that
    [generate_corrupted_string] returns is never a string of the grammar,
    whatever the alphabet: the grammar does not derive it and the forward
    run rejects it. The strings labelled invalid are invalid. *)
Theorem stock_corrupted_not_in_language {R : Type} `{RandomSource R}
    fuel g chars (r : R) bad r' :
  g = default_reber_grammar ∨ g = embedded_reber_grammar →
  generate_corrupted_string fuel g chars r = Ok (bad, r') →
  ¬ derives g (Some 0) bad ∧ ∀ budget, matches budget g bad = false.
Proof.
  intros Hg (good & r1 & i & a & b & Hgood & Ha & Hbad & _ & Hne)
    %generate_corrupted_string_Ok.
  apply generate_string_derives in Hgood.
  assert (¬ derives g (Some 0) bad) as Hnot.
  { intros Hd. destruct Hg as [-> | ->].
    - by apply (flat_one_change _ default_single_symbols default_reversible
                  _ _ _ _ _ _ Hgood Hd Ha Hbad).
    - by apply (embedded_one_change _ _ _ _ _ Hgood Hd Ha Hbad). }
  split; [done|]. intros budget. apply bool_decide_eq_false. intros Hm.
  apply run_forward_derives in Hm as (w & -> & Hw).
  by rewrite app_empty_r in Hnot.
Qed.

Lemma stock_corrupted_not_in_language_witness :
  ¬ derives embedded_reber_grammar (Some 0) "PTBTXSETE"
  ∧ ∀ budget, matches budget embedded_reber_grammar "PTBTXSETE" = false.
Proof.
  apply (stock_corrupted_not_in_language 20 embedded_reber_grammar
           POSSIBLE_CHARS [0; 0; 0; 0; 0; 1; 1; 0; 0; 0; 0; 1] "PTBTXSETE" []).
  - right. reflexivity.
  - vm_compute. reflexivity.
Defined.

(** ** What the generator and the corrupter can return *)

Lemma tape_randint high i (t : tape) :
  i < high → randint high (i :: t) = Ok (i, t).
Proof.
  intros Hi. apply randint_Ok. split; [lia|].
  simpl. by rewrite Nat.mod_small.
Qed.

(** A derivation is a run of the loop: some draws make the loop emit
    exactly the derived string and leave the rest of the tape. *)
Lemma derives_while_loop g state w :
  derives g state w →
  ∃ fuel (t : tape), ∀ budget out rest,
    fuel ≤ budget →
    while_loop budget g state out (t ++ rest) = Ok (join out +:+ w, rest).
Proof.
  induction 1 as [g|g st trs c nxt w Hg Ht Hw IH
                  |g st trs g' nxt sub w Hg Ht Hsub IHsub Hw IH].
  - exists 1, []. intros budget out rest Hle.
    apply while_loop_stop. by rewrite app_empty_r; split; [lia|].
  - destruct IH as (fuel & t & IH).
    apply list_elem_of_lookup_1 in Ht as [i Hi].
    exists (S fuel), (i :: t). intros budget out rest Hle.
    destruct budget as [|budget]; [lia|].
    apply while_loop_step.
    exists budget, trs, i, (t ++ rest), (Sym c), nxt. split_and!; try done.
    { apply tape_randint. by eapply lookup_lt_Some. }
    rewrite IH by lia. by rewrite join_snoc, str_app_assoc.
  - destruct IHsub as (fuel1 & t1 & IHsub). destruct IH as (fuel2 & t2 & IH).
    apply list_elem_of_lookup_1 in Ht as [i Hi].
    exists (S (fuel1 `max` fuel2)), (i :: t1 ++ t2).
    intros budget out rest Hle. destruct budget as [|budget]; [lia|].
    apply while_loop_step.
    exists budget, trs, i, (t1 ++ t2 ++ rest), (Sub g'), nxt.
    split_and!; try done.
    { simpl. rewrite <- app_assoc. apply tape_randint. by eapply lookup_lt_Some. }
    exists sub, (t2 ++ rest). split.
    + rewrite IHsub by lia. by rewrite join_nil, app_empty_l.
    + rewrite IH by lia. by rewrite join_snoc, str_app_assoc.
Qed.

(** X12. The generator reaches the whole language: for every string a
    grammar derives from state 0 there are draws on which
    [generate_string] returns that string. *)
Theorem generate_string_complete g s :
  derives g (Some 0) s →
  ∃ fuel (t : tape), generate_string fuel g t = Ok (s, []).
Proof.
  intros (fuel & t & Hrun)%derives_while_loop. exists fuel, t.
  unfold generate_string.
  specialize (Hrun fuel [] [] (le_n _)).
  by rewrite app_nil_r, join_nil, app_empty_l in Hrun.
Qed.

Lemma default_derives_BTXSE : derives default_reber_grammar (Some 0) "BTXSE".
Proof.
  apply (generate_string_derives (R:=tape) 20 _ [0; 0; 1; 1; 0] _ []).
  vm_compute. reflexivity.
Qed.

Lemma generate_string_complete_witness :
  ∃ fuel (t : tape), generate_string fuel default_reber_grammar t = Ok ("BTXSE", []).
Proof.
  apply (generate_string_complete default_reber_grammar "BTXSE").
  apply default_derives_BTXSE.
Defined.

(** X13. The corrupter reaches every replacement: for every string of the
    grammar, every position of it and every symbol of the alphabet other
    than the one at that position, there are draws on which
    [generate_corrupted_string] returns the string with that symbol at that
    position. *)
Theorem generate_corrupted_string_complete g chars good i a b :
  derives g (Some 0) good →
  explode good !! i = Some a →
  b ∈ explode chars →
  b ≠ a →
  ∃ fuel (t : tape) bad,
    generate_corrupted_string fuel g chars t = Ok (bad, [])
    ∧ explode bad = <[i:=b]> (explode good).
Proof.
  intros (fuel & t & Hrun)%derives_while_loop Ha Hb Hne.
  assert (i < len good) as Hi.
  { rewrite <- explode_length. by eapply lookup_lt_Some. }
  assert (chr b ∈ sorted (py_set chars ∖ py_set (chr a))) as Hcand.
  { apply elem_of_sorted. by exists b. }
  apply list_elem_of_lookup_1 in Hcand as [k Hk].
  exists fuel, (t ++ [i; k]),
    (slice_to good i +:+ chr b +:+ slice_from good (i + 1)).
  split; [|by apply explode_replace].
  unfold generate_corrupted_string.
  apply bind_Ok. exists good, [i; k]. split.
  { pose proof (Hrun fuel [] [i; k] (le_n _)) as Hgood.
    rewrite join_nil, app_empty_l in Hgood. exact Hgood. }
  apply bind_Ok. exists i, [k]. split; [by apply tape_randint|].
  apply bind_Ok. exists (chr a), [k]. split.
  { apply str_getitem_Ok. exists a. by rewrite explode_get. }
  apply bind_Ok. exists (chr b), []. split; [|done].
  apply choice_Ok. exists k. split; [|done].
  simpl. rewrite Nat.mod_small; [done|]. by eapply lookup_lt_Some.
Qed.

Lemma generate_corrupted_string_complete_witness :
  ∃ fuel (t : tape) bad,
    generate_corrupted_string fuel default_reber_grammar POSSIBLE_CHARS t
    = Ok (bad, [])
    ∧ explode bad = <[2:="V"%char]> (explode "BTXSE").
Proof.
  apply (generate_corrupted_string_complete
           default_reber_grammar POSSIBLE_CHARS "BTXSE" 2 "X"%char "V"%char).
  - apply default_derives_BTXSE.
  - reflexivity.
  - by apply (bool_decide_unpack _).
  - discriminate.
Defined.

(** ** The dataset, row by row *)

Lemma comprehension_Forall {R A} (P : A → Prop) n (c : comp R A) r l r' :
  (∀ r x r', c r = Ok (x, r') → P x) →
  comprehension n c r = Ok (l, r') →
  Forall P l.
Proof.
  intros Hc. revert r l. induction n as [|n IH]; intros r l; simpl.
  { intros [= <- <-]. constructor. }
  intros (x & r1 & Hx & (xs & r2 & Hxs & [= <- <-])%bind_Ok)%bind_Ok.
  constructor; [by eapply Hc|by eapply IH].
Qed.

Lemma embedded_derives_length s :
  derives embedded_reber_grammar (Some 0) s → 9 ≤ len s.
Proof.
  intros (c & sub & _ & Hsub%default_derives_distance & ->)%embedded_derives.
  rewrite !len_app. simpl in *. lia.
Qed.

Section DatasetRows.
Context {R : Type} `{RandomSource R}.

(** The rows of a dataset, with the strings they encode. *)
Lemma generate_dataset_rows fuel size (r : R) X y r' :
  generate_dataset fuel size r = Ok (X, y, r') →
  ∃ good_strings bad_strings,
    X = good_strings ++ bad_strings
    ∧ y = replicate (length good_strings) [1%float]
          ++ replicate (length bad_strings) [0%float]
    ∧ Forall (λ ids, ∃ s r1 r2,
                generate_string fuel embedded_reber_grammar r1 = Ok (s, r2)
                ∧ string_to_ids s POSSIBLE_CHARS = Ok ids) good_strings
    ∧ Forall (λ ids, ∃ s r1 r2,
                generate_corrupted_string fuel embedded_reber_grammar
                  POSSIBLE_CHARS r1 = Ok (s, r2)
                ∧ string_to_ids s POSSIBLE_CHARS = Ok ids) bad_strings.
Proof.
  unfold generate_dataset.
  intros (good & r1 & Hgood & (bad & r2 & Hbad & [= <- <- <-])%bind_Ok)%bind_Ok.
  exists good, bad. rewrite !const_fmap_seq. split_and!; [done..| |].
  - eapply comprehension_Forall; [|done]. clear.
    intros r ids r' (s & r1 & Hs & [Hids _]%lift_Ok)%bind_Ok. eauto.
  - eapply comprehension_Forall; [|done]. clear.
    intros r ids r' (s & r1 & Hs & [Hids _]%lift_Ok)%bind_Ok. eauto.
Qed.
End DatasetRows.

(** X14. The labels of a dataset are right. Every row of [X] encodes one
    string; a row labelled 1 encodes a string of the embedded Reber
    grammar, a row labelled 0 a string that is not in its language. *)
Theorem generate_dataset_labels_correct {R : Type} `{RandomSource R}
    fuel size (r : R) X y r' :
  generate_dataset fuel size r = Ok (X, y, r') →
  Forall2 (λ ids label,
             ∃ s, string_to_ids s POSSIBLE_CHARS = Ok ids
                  ∧ (label = [1%float]
                     ∧ derives embedded_reber_grammar (Some 0) s
                     ∨ label = [0%float]
                       ∧ ¬ derives embedded_reber_grammar (Some 0) s))
          X y.
Proof.
  intros (good & bad & -> & -> & Hgood & Hbad)%generate_dataset_rows.
  apply Forall2_app.
  - apply Forall2_replicate_r; [done|].
    eapply Forall_impl; [exact Hgood|]. simpl.
    intros ids (s & r1 & r2 & Hs & Hids). exists s. split; [done|]. left.
    split; [done|]. by eapply generate_string_derives.
  - apply Forall2_replicate_r; [done|].
    eapply Forall_impl; [exact Hbad|]. simpl.
    intros ids (s & r1 & r2 & Hs & Hids). exists s. split; [done|]. right.
    split; [done|].
    apply generate_corrupted_string_Ok in Hs
      as (good' & r3 & i & a & b & Hgood' & Ha & Hs & _ & Hne).
    apply generate_string_derives in Hgood'. intros Hd.
    by apply (embedded_one_change _ _ _ _ _ Hgood' Hd Ha Hs).
Qed.

Lemma generate_dataset_labels_correct_witness :
  Forall2 (λ ids label,
             ∃ s, string_to_ids s POSSIBLE_CHARS = Ok ids
                  ∧ (label = [1%float]
                     ∧ derives embedded_reber_grammar (Some 0) s
                     ∨ label = [0%float]
                       ∧ ¬ derives embedded_reber_grammar (Some 0) s))
          [[0; 4; 0; 4; 6; 3; 1; 4; 1]; [2; 4; 0; 4; 6; 3; 1; 4; 1];
           [0; 4; 0; 4; 6; 3; 1; 4; 6]]
          [[1%float]; [0%float]; [0%float]].
Proof.
  apply (generate_dataset_labels_correct 20 3
           [0; 0; 0; 0; 0; 1; 1; 0; 0; 0;
            0; 0; 0; 0; 0; 1; 1; 0; 0; 0; 0; 1;
            0; 0; 0; 0; 0; 1; 1; 0; 0; 0; 8; 5]
           _ _ []).
  vm_compute. reflexivity.
Defined.

(** X15. Every row of [X] fits the network the notebook feeds it to: it
    has at least 9 entries and each entry is below [len(POSSIBLE_CHARS)],
    the [input_dim] of the embedding layer. *)
Theorem generate_dataset_rows_in_range {R : Type} `{RandomSource R}
    fuel size (r : R) X y r' :
  generate_dataset fuel size r = Ok (X, y, r') →
  Forall (λ ids, 9 ≤ length ids ∧ Forall (λ k, k < len POSSIBLE_CHARS) ids) X.
Proof.
  intros (good & bad & -> & _ & Hgood & Hbad)%generate_dataset_rows.
  assert (∀ s ids, string_to_ids s POSSIBLE_CHARS = Ok ids →
            Forall (λ k, k < len POSSIBLE_CHARS) ids) as Hrange.
  { intros s ids Hids. apply Forall_lookup. intros i k Hk.
    destruct (string_to_ids_lookup _ _ _ _ _ Hids Hk) as (a & _ & Ha).
    rewrite <- explode_length. by eapply lookup_lt_Some. }
  apply Forall_app. split.
  - eapply Forall_impl; [exact Hgood|]. simpl.
    intros ids (s & r1 & r2 & Hs & Hids). split; [|by eapply Hrange].
    apply generate_string_derives, embedded_derives_length in Hs.
    apply string_to_ids_Ok in Hids as [-> _]. done.
  - eapply Forall_impl; [exact Hbad|]. simpl.
    intros ids (s & r1 & r2 & Hs & Hids). split; [|by eapply Hrange].
    apply generate_corrupted_string_Ok in Hs
      as (good' & r3 & i & a & b & Hgood' & _ & Hs & _).
    apply generate_string_derives, embedded_derives_length in Hgood'.
    apply string_to_ids_Ok in Hids as [-> _].
    by rewrite <- explode_length, Hs, length_insert, explode_length.
Qed.

Lemma generate_dataset_rows_in_range_witness :
  Forall (λ ids, 9 ≤ length ids ∧ Forall (λ k, k < len POSSIBLE_CHARS) ids)
    [[0; 4; 0; 4; 6; 3; 1; 4; 1]; [2; 4; 0; 4; 6; 3; 1; 4; 1];
     [0; 4; 0; 4; 6; 3; 1; 4; 6]].
Proof.
  apply (generate_dataset_rows_in_range 20 3
           [0; 0; 0; 0; 0; 1; 1; 0; 0; 0;
            0; 0; 0; 0; 0; 1; 1; 0; 0; 0; 0; 1;
            0; 0; 0; 0; 0; 1; 1; 0; 0; 0; 8; 5]
           _ [[1%float]; [0%float]; [0%float]] []).
  vm_compute. reflexivity.
Defined.

(** ** The candidates for the replacement *)

Lemma StronglySorted_lookup {A} (Rel : relation A) l i j x y :
  StronglySorted Rel l → i < j → l !! i = Some x → l !! j = Some y → Rel x y.
Proof.
  intros Hl. revert i j. induction Hl as [|z l Hl IH Hz]; intros i j Hij Hi Hj.
  { done. }
  destruct j as [|j]; [lia|]. destruct i as [|i]; simpl in Hi, Hj.
  - injection Hi as <-. rewrite Forall_forall in Hz.
    by eapply Hz, list_elem_of_lookup_2.
  - apply (IH i j); [lia|done..].
Qed.

(** X16. The list the replacement is chosen from holds every symbol of the
    alphabet other than the one being replaced exactly once, in increasing
    order of code points, however often and in whatever order the alphabet
    lists its symbols. *)
Theorem candidates_distinct_increasing chars good_char :
  NoDup (sorted (py_set chars ∖ py_set (chr good_char)))
  ∧ (∀ c, c ∈ sorted (py_set chars ∖ py_set (chr good_char))
          ↔ ∃ b, c = chr b ∧ b ∈ explode chars ∧ b ≠ good_char)
  ∧ ∀ i j x y,
      i < j →
      sorted (py_set chars ∖ py_set (chr good_char)) !! i = Some (chr x) →
      sorted (py_set chars ∖ py_set (chr good_char)) !! j = Some (chr y) →
      nat_of_ascii x < nat_of_ascii y.
Proof.
  assert (NoDup (merge_sort ascii_le
            (elements (py_set chars ∖ py_set (chr good_char))))) as Hnodup.
  { rewrite merge_sort_Permutation. apply NoDup_elements. }
  split_and!.
  - unfold sorted. apply NoDup_fmap_2; [|done]. intros a b. apply chr_inj.
  - intros c. apply elem_of_sorted.
  - unfold sorted. intros i j x y Hij Hi Hj.
    rewrite list_lookup_fmap in Hi, Hj.
    destruct (merge_sort _ _ !! i) as [x'|] eqn:Hx; [|done].
    destruct (merge_sort _ _ !! j) as [y'|] eqn:Hy; [|done].
    injection Hi as <-. injection Hj as <-.
    pose proof (StronglySorted_lookup ascii_le _ _ _ _ _
                  (StronglySorted_merge_sort _ _) Hij Hx Hy) as Hle.
    unfold ascii_le in Hle.
    assert (x' ≠ y') as Hne.
    { intros ->. pose proof (NoDup_lookup _ _ _ _ Hnodup Hx Hy). lia. }
    assert (nat_of_ascii x' ≠ nat_of_ascii y'); [|lia].
    intros Heq. apply Hne.
    by rewrite <- (ascii_nat_embedding x'), <- (ascii_nat_embedding y'), Heq.
Qed.

(** ** The test strings of the notebook *)

(** Both test strings are encoded; the second is a string of the embedded
    Reber grammar and the first, which differs from it in the last symbol
    but one, is not. *)
Example test_strings_encoded :
  X_test
  = Ok [[0; 2; 0; 4; 3; 3; 3; 3; 3; 3; 3; 6; 6; 4; 4; 5; 2; 6; 5; 2; 6; 4; 4;
         4; 4; 4; 5; 5; 1; 4; 1];
        [0; 2; 0; 4; 3; 3; 3; 3; 3; 3; 3; 6; 6; 4; 4; 5; 2; 6; 5; 2; 6; 4; 4;
         4; 4; 4; 5; 5; 1; 2; 1]].
Proof. vm_compute. reflexivity. Qed.

Example test_strings_in_language :
  ¬ derives embedded_reber_grammar (Some 0) "BPBTSSSSSSSXXTTVPXVPXTTTTTVVETE"
  ∧ derives embedded_reber_grammar (Some 0) "BPBTSSSSSSSXXTTVPXVPXTTTTTVVEPE".
Proof.
  assert (derives embedded_reber_grammar (Some 0)
            "BPBTSSSSSSSXXTTVPXVPXTTTTTVVEPE") as Hgood.
  { assert (matches 40 embedded_reber_grammar
              "BPBTSSSSSSSXXTTVPXVPXTTTTTVVEPE" = true) as Hm
      by (vm_compute; reflexivity).
    apply bool_decide_eq_true, run_forward_derives in Hm as (w & -> & Hw).
    by rewrite app_empty_r. }
  split; [|done]. intros Hbad.
  by apply (embedded_one_change _ _ 29 "P"%char "T"%char Hgood Hbad).
Qed.

(** * The dataset is returned *)

Lemma extends_trans {R A} (c1 c2 c3 : comp R A) :
  extends c1 c2 → extends c2 c3 → extends c1 c3.
Proof. intros H12 H23 r a r' Hc. by apply H23, H12. Qed.


Section DatasetReturns.
Context {R : Type} `{RandomSource R}.




End DatasetReturns.

Lemma top_source_halts : generator_halts unit.
Proof.
  intros []. exists 20, "BPBPVVEPE", (). vm_compute. reflexivity.
Qed.



Example generate_dataset_top :
  generate_dataset 20 3 ()
  = Ok ([[0; 2; 0; 2; 5; 5; 1; 2; 1]; [0; 2; 0; 2; 5; 5; 1; 2; 6];
         [0; 2; 0; 2; 5; 5; 1; 2; 6]],
        [[1%float]; [0%float]; [0%float]], ()).
Proof. vm_compute. reflexivity. Qed.

(** The condition on the source is needed: when every draw is 0 the
    generator stays in state 2 of the nested grammar and no budget makes
    [generate_dataset(1)] return. *)
Lemma default_state_2_loops fuel out :
  while_loop fuel default_reber_grammar (Some 2) out ([] : tape) = Diverge.
Proof.
  revert out. induction fuel as [|fuel IH]; intros out; [done|].
  simpl. unfold bind, getitem, ret. simpl. apply IH.
Qed.

Example generate_dataset_can_loop fuel : generate_dataset fuel 1 ([] : tape) = Diverge.
Proof.
  unfold generate_dataset. simpl. unfold bind at 1. simpl.
  unfold bind at 1. unfold bind at 1. unfold bind at 1.
  unfold generate_corrupted_string. unfold bind at 1.
  assert (generate_string fuel embedded_reber_grammar ([] : tape) = Diverge)
    as ->; [|done].
  unfold generate_string.
  destruct fuel as [|[|[|[|[|[|fuel]]]]]]; try done.
  cbn. unfold bind, getitem, ret. cbn.
  by rewrite default_state_2_loops.
Qed.

(** * Runs that differ in the order of their sets *)

(** Sorting makes the order in which the set is iterated irrelevant. *)
Lemma sorted_from_sorted iter S :
  valid_order iter → sorted_from iter S = sorted S.
Proof. intros Hiter. apply sorted_order_irrelevant, Hiter. Qed.

Lemma bind_ext {R A B} (c1 c2 : comp R A) (k1 k2 : A → comp R B) r :
  c1 r = c2 r → (∀ a r1, k1 a r1 = k2 a r1) → bind c1 k1 r = bind c2 k2 r.
Proof.
  intros Hc Hk. unfold bind. rewrite Hc.
  by destruct (c2 r) as [[a r1]| |].
Qed.

Lemma comprehension_ext {R A} n (c1 c2 : comp R A) r :
  (∀ r, c1 r = c2 r) → comprehension n c1 r = comprehension n c2 r.
Proof.
  intros Hc. revert r. induction n as [|n IH]; intros r; simpl; [done|].
  apply bind_ext; [done|]. intros x r1. by apply bind_ext.
Qed.

Section UnderOrder.
Context {R : Type} `{RandomSource R}.
Variable iter : gset ascii → list ascii.
Hypothesis Hiter : valid_order iter.

Lemma generate_corrupted_string_under_eq fuel g chars (r : R) :
  generate_corrupted_string_under iter fuel g chars r
  = generate_corrupted_string fuel g chars r.
Proof.
  unfold generate_corrupted_string_under, generate_corrupted_string.
  apply bind_ext; [done|]. intros good r1.
  apply bind_ext; [done|]. intros index r2.
  apply bind_ext; [done|]. intros good_char r3.
  by rewrite sorted_from_sorted.
Qed.

Lemma generate_dataset_under_eq fuel size (r : R) :
  generate_dataset_under iter fuel size r = generate_dataset fuel size r.
Proof.
  unfold generate_dataset_under, generate_dataset.
  apply bind_ext; [done|]. intros good r1.
  apply bind_ext; [|done]. apply comprehension_ext. intros r2.
  apply bind_ext; [|done]. apply generate_corrupted_string_under_eq.
Qed.

Lemma run_calls_under_eq fuel calls (r : R) :
  run_calls_under iter fuel calls r = run_calls fuel calls r.
Proof.
  revert r. induction calls as [|c calls IH]; intros r; simpl; [done|].
  apply bind_ext.
  { destruct c as [g|g chars|size]; simpl; [done| |].
    - apply bind_ext; [|done]. apply generate_corrupted_string_under_eq.
    - apply bind_ext; [|done]. apply generate_dataset_under_eq. }
  intros o r1. by apply bind_ext.
Qed.
End UnderOrder.

(** C7. Two runs whose random sources are seeded identically and which make
    the same sequence of [generate_string], [generate_corrupted_string] and
    [generate_dataset] calls return the same outputs, call for call, and
    end with their sources still in step, also when the two runs iterate
    their sets in different orders. A corrupter call uses the draws in a
    fixed order: on a tape that holds the draws of the generator, then a
    position, then the rank of a candidate, it returns the generated string
    with the symbol at that position replaced by that candidate, and
    leaves the rest of the tape. *)
Theorem identical_seeds_identical_outputs {R1 R2 : Type}
    `{RandomSource R1} `{RandomSource R2} (same : R1 → R2 → Prop)
    (iter1 iter2 : gset ascii → list ascii)
    fuel calls g chars (r1 : R1) (r2 : R2) :
  same_draws same →
  valid_order iter1 →
  valid_order iter2 →
  same r1 r2 →
  agree same (run_calls_under iter1 fuel calls r1)
             (run_calls_under iter2 fuel calls r2)
  ∧ ∀ (t rest : tape) good index good_char k bad_char,
      (∀ rest', generate_string fuel g (t ++ rest') = Ok (good, rest')) →
      String.get index good = Some good_char →
      sorted_from iter1 (py_set chars ∖ py_set (chr good_char)) !! k
      = Some bad_char →
      generate_corrupted_string_under iter1 fuel g chars
        (t ++ index :: k :: rest)
      = Ok (slice_to good index +:+ bad_char
            +:+ slice_from good (index + 1), rest).
Proof.
  intros Hsame Hiter1 Hiter2 Hr. split.
  { rewrite (run_calls_under_eq iter1 Hiter1), (run_calls_under_eq iter2 Hiter2).
    by apply in_step_run_calls. }
  intros t rest good index good_char k bad_char Hgood Hchar Hcand.
  unfold generate_corrupted_string_under.
  apply bind_Ok. exists good, (index :: k :: rest). split; [apply Hgood|].
  apply bind_Ok. exists index, (k :: rest). split.
  { apply tape_randint. rewrite explode_get in Hchar.
    apply lookup_lt_Some in Hchar. by rewrite explode_length in Hchar. }
  apply bind_Ok. exists (chr good_char), (k :: rest). split.
  { apply str_getitem_Ok. by exists good_char. }
  apply bind_Ok. exists bad_char, rest. split; [|done].
  apply choice_Ok. exists k. split; [|done].
  simpl. rewrite Nat.mod_small; [done|]. by eapply lookup_lt_Some.
Qed.

(** A second order of iteration: the elements backwards. *)
Lemma reverse_elements_valid : valid_order (λ S, reverse (elements S)).
Proof. intros S. apply reverse_Permutation. Qed.

Lemma elements_valid : valid_order elements.
Proof. by intros S. Qed.

Lemma identical_seeds_identical_outputs_witness :
  agree tape_stream_same
    (run_calls_under elements 20
       [call_generate_string default_reber_grammar;
        call_generate_corrupted_string embedded_reber_grammar POSSIBLE_CHARS;
        call_generate_dataset 1]
       [7; 0; 0; 1; 1; 0;
        0; 0; 0; 0; 0; 1; 1; 0; 0; 0; 0; 1;
        0; 0; 0; 0; 0; 1; 1; 0; 0; 0; 8; 5])
    (run_calls_under (λ S, reverse (elements S)) 20
       [call_generate_string default_reber_grammar;
        call_generate_corrupted_string embedded_reber_grammar POSSIBLE_CHARS;
        call_generate_dataset 1]
       (λ i, nth i [7; 0; 0; 1; 1; 0;
                    0; 0; 0; 0; 0; 1; 1; 0; 0; 0; 0; 1;
                    0; 0; 0; 0; 0; 1; 1; 0; 0; 0; 8; 5] 0, 0))
  ∧ ∀ (t rest : tape) good index good_char k bad_char,
      (∀ rest', generate_string 20 default_reber_grammar (t ++ rest')
                = Ok (good, rest')) →
      String.get index good = Some good_char →
      sorted_from elements (py_set POSSIBLE_CHARS ∖ py_set (chr good_char)) !! k
      = Some bad_char →
      generate_corrupted_string_under elements 20 default_reber_grammar
        POSSIBLE_CHARS (t ++ index :: k :: rest)
      = Ok (slice_to good index +:+ bad_char
            +:+ slice_from good (index + 1), rest).
Proof.
  apply (identical_seeds_identical_outputs tape_stream_same
           elements (λ S, reverse (elements S)) 20).
  - apply tape_stream_same_draws.
  - apply elements_valid.
  - apply reverse_elements_valid.
  - apply tape_stream_same_start.
Defined.

(** The two orders do differ, and the runs still agree: position 2, then
    candidate 3 of B E P S T V, after the draws of B T X S E. *)
Example reverse_elements_differs :
  reverse (elements (py_set POSSIBLE_CHARS ∖ py_set "X"))
  ≠ elements (py_set POSSIBLE_CHARS ∖ py_set "X").
Proof. vm_compute. discriminate. Qed.

Example corrupted_under_reverse :
  generate_corrupted_string_under (λ S, reverse (elements S))
    20 default_reber_grammar POSSIBLE_CHARS ([0; 0; 1; 1; 0] ++ [2; 3; 9])
  = Ok ("BTSSE", [9]).
Proof. vm_compute. reflexivity. Qed.
